(** * EnigmaIOT: receive ring buffer, message tags, JSON controller

    A shallow embedding of the parts of the EnigmaIOT library that its
    specification makes checkable statements about:

    - [RingBuffer]: the template class [EnigmaIOTRingBuffer] of
      [EnigmaIOTRingBuffer.h] (main ring plus the secondary overflow area);
    - [MessageType]: the enumeration [gatewayMessageType_t] of
      [EnigmaIOTGateway.h];
    - [JsonController]: [connectInform], [callHAdiscoveryCalls] and
      [sendJson] of [EnigmaIOTjsonController.h];
    - [Counter]: the counter window of the gateway's data-message handler,
      whose body is not part of the header files.

    C++ [int] values are modelled in [Z]; the ring invariant below shows that
    every [int] field stays inside [0, maxSize], so no signed overflow is
    involved.  [uint8_t] arithmetic is written with its wrap-around modulo
    256, clock arithmetic with its wrap-around modulo 2^32. *)

From stdpp Require Import base list numbers strings.
From Stdlib Require Import ZArith Lia.

Local Open Scope Z_scope.

(** ** Array cells addressed by a C++ index *)

Module Mem.
Section cells.
Context {A : Type}.

(** [buf[i]] as an rvalue.  The outer [option] is [None] outside the
    allocated array (undefined behaviour in the source). *)
Definition load (buf : list A) (i : Z) : option A :=
  if decide (0 <= i) then buf !! Z.to_nat i else None.

(** [memcpy (&buf[i], src, sizeof (A))].  An out-of-range destination is
    undefined behaviour in the source; the model leaves the array as it
    is, and the ring invariant shows the case does not arise. *)
Definition store (buf : list A) (i : Z) (x : A) : list A :=
  if decide (0 <= i) then <[Z.to_nat i := x]> buf else buf.

End cells.
End Mem.

(** ** EnigmaIOTRingBuffer.h *)

Module RingBuffer.

(** [uint8_t MAX_OVERFLOW_BUFFER_SIZE = 15;] *)
Definition MAX_OVERFLOW_BUFFER_SIZE : Z := 15.

(** Conversion of an [int] result back to [uint8_t]. *)
Definition to_uint8 (z : Z) : Z := z mod 256.

(** What [front] hands back: [NULL], [&(buffer[i])] or
    [&(overflowBuffer[i])]. *)
Inductive pointer : Set :=
  | NULL
  | BufferAt (i : Z)
  | OverflowAt (i : Z).

(** The three branches of [pushInOverFlowBuffer], in source order. *)
Inductive overflow_branch : Set :=
  | OverflowInitiated   (* "Overflow Buffer initiated" *)
  | OverflowDiscarded   (* "Overflow Buffer is also full, disacrding message now" *)
  | OverflowStored.     (* the memcpy into overflowBuffer *)

#[global] Instance pointer_eq_dec : EqDecision pointer.
Proof. solve_decision. Defined.

#[global] Instance overflow_branch_eq_dec : EqDecision overflow_branch.
Proof. solve_decision. Defined.

Section ring.
Context {Telement : Type}.

(** A cell is [None] until something has been copied into it
    ([new Telement[n]] leaves the elements indeterminate). *)
Definition cell : Type := option Telement.

(** The data members of the class.  [overflowBuffer] is [None] while no
    array is allocated behind the pointer. *)
Record EnigmaIOTRingBuffer : Type := mkRing {
  maxSize : Z;
  numElements : Z;
  readIndex : Z;
  writeIndex : Z;
  buffer : list cell;
  overflowBuffer : option (list cell);
  overflow_index : Z;
  deleteOverflow : bool
}.

(** Constructor: [maxSize (range)], [buffer = new Telement[maxSize]],
    the other members from their default initialisers. *)
Definition create (range : Z) : EnigmaIOTRingBuffer :=
  {| maxSize := range;
     numElements := 0;
     readIndex := 0;
     writeIndex := 0;
     buffer := replicate (Z.to_nat range) None;
     overflowBuffer := None;
     overflow_index := MAX_OVERFLOW_BUFFER_SIZE + 1;
     deleteOverflow := false |}.

Definition size (rb : EnigmaIOTRingBuffer) : Z := numElements rb.

Definition isFull (rb : EnigmaIOTRingBuffer) : bool :=
  bool_decide (numElements rb = maxSize rb).

Definition empty (rb : EnigmaIOTRingBuffer) : bool :=
  bool_decide (numElements rb = 0).

Definition empty2 (rb : EnigmaIOTRingBuffer) : bool :=
  bool_decide (overflow_index rb = MAX_OVERFLOW_BUFFER_SIZE + 1).

(** [idx++; if (idx >= maxSize) idx %= maxSize;] with C++ [%]. *)
Definition advance (idx maxSz : Z) : Z :=
  let idx := idx + 1 in
  if decide (idx >= maxSz) then Z.rem idx maxSz else idx.

Definition shouldDeleteOverflowBuffer (rb : EnigmaIOTRingBuffer)
  : EnigmaIOTRingBuffer :=
  if deleteOverflow rb then
    {| maxSize := maxSize rb;
       numElements := numElements rb;
       readIndex := readIndex rb;
       writeIndex := writeIndex rb;
       buffer := buffer rb;
       overflowBuffer := None;
       overflow_index := overflow_index rb;
       deleteOverflow := false |}
  else rb.

(** Which branch of [pushInOverFlowBuffer] a state selects. *)
Definition overflow_branch_of (rb : EnigmaIOTRingBuffer) : overflow_branch :=
  if decide (overflow_index rb = MAX_OVERFLOW_BUFFER_SIZE + 1) then
    OverflowInitiated
  else if decide (overflow_index rb > MAX_OVERFLOW_BUFFER_SIZE - 1) then
    OverflowDiscarded
  else OverflowStored.

(** [overflowBuffer[i] = c] through the pointer; nothing to write to when
    no array is allocated. *)
Definition store_overflow (ob : option (list cell)) (i : Z) (c : cell)
  : option (list cell) :=
  match ob with
  | Some arr => Some (Mem.store arr i c)
  | None => None
  end.

(** The source cell of a [memcpy]: the content of [buffer[i]], or
    indeterminate outside the array. *)
Definition read_cell (buf : list cell) (i : Z) : cell :=
  default None (Mem.load buf i).

Definition pushInOverFlowBuffer (rb : EnigmaIOTRingBuffer)
  : EnigmaIOTRingBuffer :=
  let rb := shouldDeleteOverflowBuffer rb in
  match overflow_branch_of rb with
  | OverflowInitiated =>
      {| maxSize := maxSize rb;
         numElements := numElements rb;
         readIndex := readIndex rb;
         writeIndex := writeIndex rb;
         buffer := buffer rb;
         overflowBuffer :=
           Some (replicate (Z.to_nat MAX_OVERFLOW_BUFFER_SIZE) None);
         overflow_index := 0;
         deleteOverflow := deleteOverflow rb |}
  | OverflowDiscarded => rb
  | OverflowStored =>
      {| maxSize := maxSize rb;
         numElements := numElements rb;
         readIndex := readIndex rb;
         writeIndex := writeIndex rb;
         buffer := buffer rb;
         overflowBuffer :=
           store_overflow (overflowBuffer rb) (overflow_index rb)
                          (read_cell (buffer rb) (writeIndex rb));
         overflow_index := to_uint8 (overflow_index rb + 1);
         deleteOverflow := deleteOverflow rb |}
  end.

Definition push (item : Telement) (rb : EnigmaIOTRingBuffer)
  : bool * EnigmaIOTRingBuffer :=
  let wasFull := isFull rb in
  let rb :=
    if wasFull && bool_decide (writeIndex rb = readIndex rb)
    then pushInOverFlowBuffer rb else rb in
  (negb wasFull,
   {| maxSize := maxSize rb;
      numElements := if wasFull then numElements rb else numElements rb + 1;
      readIndex :=
        if wasFull then advance (readIndex rb) (maxSize rb) else readIndex rb;
      writeIndex := advance (writeIndex rb) (maxSize rb);
      buffer := Mem.store (buffer rb) (writeIndex rb) (Some item);
      overflowBuffer := overflowBuffer rb;
      overflow_index := overflow_index rb;
      deleteOverflow := deleteOverflow rb |}).

Definition pop (rb : EnigmaIOTRingBuffer) : bool * EnigmaIOTRingBuffer :=
  let wasEmpty := empty rb in
  (negb wasEmpty,
   if wasEmpty then rb
   else
     {| maxSize := maxSize rb;
        numElements := numElements rb - 1;
        readIndex := advance (readIndex rb) (maxSize rb);
        writeIndex := writeIndex rb;
        buffer := buffer rb;
        overflowBuffer := overflowBuffer rb;
        overflow_index := overflow_index rb;
        deleteOverflow := deleteOverflow rb |}).

Definition frontOverflowBuffer (rb : EnigmaIOTRingBuffer)
  : pointer * EnigmaIOTRingBuffer :=
  if decide (overflow_index rb = MAX_OVERFLOW_BUFFER_SIZE + 1) then
    (NULL, shouldDeleteOverflowBuffer rb)
  else if decide (overflow_index rb - 1 = 0) then
    (OverflowAt 0,
     {| maxSize := maxSize rb;
        numElements := numElements rb;
        readIndex := readIndex rb;
        writeIndex := writeIndex rb;
        buffer := buffer rb;
        overflowBuffer := overflowBuffer rb;
        overflow_index := MAX_OVERFLOW_BUFFER_SIZE + 1;
        deleteOverflow := true |})
  else
    let i := to_uint8 (overflow_index rb - 1) in
    (OverflowAt i,
     {| maxSize := maxSize rb;
        numElements := numElements rb;
        readIndex := readIndex rb;
        writeIndex := writeIndex rb;
        buffer := buffer rb;
        overflowBuffer := overflowBuffer rb;
        overflow_index := i;
        deleteOverflow := deleteOverflow rb |}).

Definition front (rb : EnigmaIOTRingBuffer)
  : pointer * EnigmaIOTRingBuffer :=
  let rb := shouldDeleteOverflowBuffer rb in
  if negb (empty rb) then (BufferAt (readIndex rb), rb)
  else frontOverflowBuffer rb.

(** Reading through a pointer returned by [front].  The outer [option] is
    [None] for [NULL] and for an address outside any live array. *)
Definition deref (rb : EnigmaIOTRingBuffer) (p : pointer) : option cell :=
  match p with
  | NULL => None
  | BufferAt i => Mem.load (buffer rb) i
  | OverflowAt i => arr ← overflowBuffer rb; Mem.load arr i
  end.

(** *** Derived notions used by the statements *)

(** Pushing a list of items, first item first, with nothing consumed. *)
Definition push_all (items : list Telement) (rb : EnigmaIOTRingBuffer)
  : EnigmaIOTRingBuffer :=
  foldl (fun rb item => (push item rb).2) rb items.

(** Number of frames parked in the overflow area: [overflow_index] is the
    next free slot, and [MAX_OVERFLOW_BUFFER_SIZE + 1] marks "none". *)
Definition overflow_count (rb : EnigmaIOTRingBuffer) : Z :=
  if empty2 rb then 0 else overflow_index rb.

(** A push discards the displaced frame when it enters
    [pushInOverFlowBuffer] and that takes its second branch. *)
Definition push_discards (rb : EnigmaIOTRingBuffer) : bool :=
  isFull rb && bool_decide (writeIndex rb = readIndex rb)
  && bool_decide
       (overflow_branch_of (shouldDeleteOverflowBuffer rb) = OverflowDiscarded).

(** Number of discarded frames over a run of pushes. *)
Fixpoint discarded (items : list Telement) (rb : EnigmaIOTRingBuffer) : nat :=
  match items with
  | [] => 0%nat
  | item :: items' =>
      ((if push_discards rb then 1 else 0) + discarded items' (push item rb).2)%nat
  end.

(** The ring invariant: capacity is positive, the array has [maxSize]
    cells, indices are inside the array, and the write index is
    [numElements] cells ahead of the read index. *)
Record ring_inv (rb : EnigmaIOTRingBuffer) : Prop := mkRingInv {
  inv_maxSize : 0 < maxSize rb;
  inv_length : Z.of_nat (length (buffer rb)) = maxSize rb;
  inv_numElements : 0 <= numElements rb <= maxSize rb;
  inv_readIndex : 0 <= readIndex rb < maxSize rb;
  inv_writeIndex : 0 <= writeIndex rb < maxSize rb;
  inv_distance :
    writeIndex rb = (readIndex rb + numElements rb) mod maxSize rb
}.

(** The overflow index is a slot number, the "full" mark 15, or the
    "none" mark 16. *)
Definition overflow_inv (rb : EnigmaIOTRingBuffer) : Prop :=
  0 <= overflow_index rb <= MAX_OVERFLOW_BUFFER_SIZE + 1.

(** *** Runs of the public operations

    A client issues [push], [pop] and [front]; [front]'s pointer is read
    at once, before the next operation. *)

Inductive operation : Type :=
  | Push (item : Telement)
  | Pop
  | Front.

Inductive observation : Type :=
  | Pushed (ok : bool)
  | Popped (ok : bool)
  | FrontIs (p : pointer) (content : option cell).

Definition step (o : operation) (rb : EnigmaIOTRingBuffer)
  : observation * EnigmaIOTRingBuffer :=
  match o with
  | Push item => let r := push item rb in (Pushed r.1, r.2)
  | Pop => let r := pop rb in (Popped r.1, r.2)
  | Front => let r := front rb in (FrontIs r.1 (deref r.2 r.1), r.2)
  end.

Fixpoint run (ops : list operation) (rb : EnigmaIOTRingBuffer)
  : list observation * EnigmaIOTRingBuffer :=
  match ops with
  | [] => ([], rb)
  | o :: ops' =>
      let r := step o rb in
      let rs := run ops' r.2 in
      (r.1 :: rs.1, rs.2)
  end.

(** The ring is not full after any operation of the run. *)
Fixpoint never_full (ops : list operation) (rb : EnigmaIOTRingBuffer) : Prop :=
  match ops with
  | [] => True
  | o :: ops' =>
      isFull (step o rb).2 = false /\ never_full ops' (step o rb).2
  end.

(** No [push] of the run finds the ring full (nothing is overwritten). *)
Fixpoint no_overwrite (ops : list operation) (rb : EnigmaIOTRingBuffer) : Prop :=
  match ops with
  | [] => True
  | o :: ops' =>
      (match o with Push _ => isFull rb = false | _ => True end)
      /\ no_overwrite ops' (step o rb).2
  end.

(** The cells between the read index and the write index, oldest first. *)
Fixpoint contents_from (buf : list cell) (maxSz idx : Z) (n : nat) : list cell :=
  match n with
  | O => []
  | S n' => read_cell buf idx :: contents_from buf maxSz (advance idx maxSz) n'
  end.

Definition contents (rb : EnigmaIOTRingBuffer) : list cell :=
  contents_from (buffer rb) (maxSize rb) (readIndex rb)
                (Z.to_nat (numElements rb)).

(** Reference first-in first-out queue: what the same operations answer on
    a plain list, [front] giving the oldest element or nothing. *)
Inductive answer : Type :=
  | APushed (ok : bool)
  | APopped (ok : bool)
  | AFront (item : option Telement).

Definition fifo_step (o : operation) (q : list Telement)
  : answer * list Telement :=
  match o with
  | Push item => (APushed true, q ++ [item])
  | Pop => (APopped (negb (bool_decide (q = []%list))), tail q)
  | Front => (AFront (head q), q)
  end.

Fixpoint fifo_run (ops : list operation) (q : list Telement)
  : list answer * list Telement :=
  match ops with
  | [] => ([], q)
  | o :: ops' =>
      let r := fifo_step o q in
      let rs := fifo_run ops' r.2 in
      (r.1 :: rs.1, rs.2)
  end.

(** What a client sees of an observation: the boolean results, and for
    [front] the element behind the pointer ([None] for [NULL]). *)
Definition seen (ob : observation) : answer :=
  match ob with
  | Pushed b => APushed b
  | Popped b => APopped b
  | FrontIs p c => AFront (mjoin c)
  end.

(** Two states with the same main ring ([shouldDeleteOverflowBuffer],
    [pushInOverFlowBuffer] and [front] only touch the overflow members). *)
Definition same_ring (rb rb' : EnigmaIOTRingBuffer) : Prop :=
  maxSize rb' = maxSize rb /\ numElements rb' = numElements rb
  /\ readIndex rb' = readIndex rb /\ writeIndex rb' = writeIndex rb
  /\ buffer rb' = buffer rb.

(** The state [push] works on after its call to [pushInOverFlowBuffer]. *)
Definition after_overflow (rb : EnigmaIOTRingBuffer) : EnigmaIOTRingBuffer :=
  if isFull rb && bool_decide (writeIndex rb = readIndex rb)
  then pushInOverFlowBuffer rb else rb.

(** The ring [rb] holds the queue [q], and the overflow area has never been
    used. *)
Definition represents (rb : EnigmaIOTRingBuffer) (q : list Telement) : Prop :=
  ring_inv rb
  /\ overflow_index rb = MAX_OVERFLOW_BUFFER_SIZE + 1
  /\ deleteOverflow rb = false
  /\ contents rb = map Some q.

(** What holds of a ring that has only ever been pushed to. *)
Definition producer_inv (rb : EnigmaIOTRingBuffer) : Prop :=
  ring_inv rb /\ overflow_inv rb /\ deleteOverflow rb = false.

(** *** Further notions: the overflow area and its allocation *)

(** The entries parked in the overflow area, slot 0 first. *)
Definition overflow_entries (rb : EnigmaIOTRingBuffer) : list cell :=
  match overflowBuffer rb with
  | Some arr => take (Z.to_nat (overflow_count rb)) arr
  | None => []
  end.

(** An array of [MAX_OVERFLOW_BUFFER_SIZE] cells is live behind
    [overflowBuffer]. *)
Definition overflow_allocated (rb : EnigmaIOTRingBuffer) : Prop :=
  exists arr, overflowBuffer rb = Some arr
              /\ length arr = Z.to_nat MAX_OVERFLOW_BUFFER_SIZE.

(** The allocation discipline of the overflow area: [overflow_index] is a
    [uint8_t]; a deletion is pending only at the "none" mark; and the array
    is live whenever the index is not the "none" mark or a deletion is
    pending. *)
Definition alloc_inv (rb : EnigmaIOTRingBuffer) : Prop :=
  0 <= overflow_index rb < 256
  /\ (overflow_index rb <> MAX_OVERFLOW_BUFFER_SIZE + 1 ->
        deleteOverflow rb = false)
  /\ (overflow_index rb <> MAX_OVERFLOW_BUFFER_SIZE + 1
        \/ deleteOverflow rb = true ->
        overflow_allocated rb).

(** The state of the overflow area after [n] pushes on a fresh ring of
    capacity [m]: untouched up to [m] pushes, then [n - m - 1] entries, at
    most 15. *)
Definition overflow_index_after (m n : Z) : Z :=
  if decide (n <= m) then MAX_OVERFLOW_BUFFER_SIZE + 1
  else Z.min (n - m - 1) MAX_OVERFLOW_BUFFER_SIZE.

(** The overflow array after the pushes of [items] on a fresh ring of
    capacity [m]: not allocated up to [m] pushes; afterwards slot [j] holds
    the item of position [j + 1] of the run, for the slots in use, and the
    remaining cells are unwritten. *)
Definition overflow_array_after (m : Z) (items : list Telement)
  : option (list cell) :=
  let n := Z.of_nat (length items) in
  if decide (n <= m) then None
  else
    let k := Z.to_nat (overflow_index_after m n) in
    Some ((Some <$> take k (drop 1 items))
          ++ replicate (Z.to_nat MAX_OVERFLOW_BUFFER_SIZE - k) None).

End ring.

Arguments EnigmaIOTRingBuffer : clear implicits.
Arguments cell : clear implicits.
Arguments operation : clear implicits.
Arguments observation : clear implicits.
Arguments answer : clear implicits.

(** *** Rings of integers, for concrete runs *)

(** A ring of capacity 2 filled with 1 and 2. *)
Definition full_ring : EnigmaIOTRingBuffer Z := push_all [1; 2] (create 2).

(** The statement that discarded frames are counted: some function of the
    object's state gives, after any run of pushes on a fresh ring, the
    number of frames discarded during the run. *)
Definition discarded_frames_counted : Prop :=
  exists counter : EnigmaIOTRingBuffer Z -> nat,
    forall (range : Z) (items : list Z),
      0 < range ->
      counter (push_all items (create range)) = discarded items (create range).

(** A ring of capacity 1 after four pushes and one pop: the main ring is
    empty and the overflow area holds two frames. *)
Definition drained_ring : EnigmaIOTRingBuffer Z :=
  (pop (push_all [1; 2; 3; 4] (create 1))).2.

(** A ring of capacity 1 after three pushes and one pop: the main ring is
    empty and the overflow area holds one frame. *)
Definition last_frame_ring : EnigmaIOTRingBuffer Z :=
  (pop (push_all [1; 2; 3] (create 1))).2.

(** A ring of capacity 2 after five pushes: full, with two frames in the
    overflow area. *)
Definition overflowed_ring : EnigmaIOTRingBuffer Z :=
  push_all [1; 2; 3; 4; 5] (create 2).

End RingBuffer.

(** ** EnigmaIOTGateway.h: message codes *)

Module MessageType.

(** [enum gatewayMessageType_t]: a C++ unscoped enumeration, whose
    enumerators are named integer constants. *)
Definition gatewayMessageType_t : Set := Z.

Definition SENSOR_DATA : gatewayMessageType_t := 0x01.
Definition SENSOR_BRCAST_DATA : gatewayMessageType_t := 0x81.
Definition UNENCRYPTED_NODE_DATA : gatewayMessageType_t := 0x11.
Definition DOWNSTREAM_DATA_SET : gatewayMessageType_t := 0x02.
Definition DOWNSTREAM_BRCAST_DATA_SET : gatewayMessageType_t := 0x82.
Definition DOWNSTREAM_DATA_GET : gatewayMessageType_t := 0x12.
Definition DOWNSTREAM_BRCAST_DATA_GET : gatewayMessageType_t := 0x92.
Definition CONTROL_DATA : gatewayMessageType_t := 0x03.
Definition DOWNSTREAM_CTRL_DATA : gatewayMessageType_t := 0x04.
Definition DOWNSTREAM_BRCAST_CTRL_DATA : gatewayMessageType_t := 0x84.
Definition HA_DISCOVERY_MESSAGE : gatewayMessageType_t := 0x08.
Definition CLOCK_REQUEST : gatewayMessageType_t := 0x05.
Definition CLOCK_RESPONSE : gatewayMessageType_t := 0x06.
Definition NODE_NAME_SET : gatewayMessageType_t := 0x07.
Definition NODE_NAME_RESULT : gatewayMessageType_t := 0x17.
Definition BROADCAST_KEY_REQUEST : gatewayMessageType_t := 0x08.
Definition BROADCAST_KEY_RESPONSE : gatewayMessageType_t := 0x18.
Definition CLIENT_HELLO : gatewayMessageType_t := 0xFF.
Definition SERVER_HELLO : gatewayMessageType_t := 0xFE.
Definition INVALIDATE_KEY : gatewayMessageType_t := 0xFB.

(** The enumerators by name, in declaration order. *)
Definition enumerators : list (string * gatewayMessageType_t) :=
  [ ("SENSOR_DATA", SENSOR_DATA);
    ("SENSOR_BRCAST_DATA", SENSOR_BRCAST_DATA);
    ("UNENCRYPTED_NODE_DATA", UNENCRYPTED_NODE_DATA);
    ("DOWNSTREAM_DATA_SET", DOWNSTREAM_DATA_SET);
    ("DOWNSTREAM_BRCAST_DATA_SET", DOWNSTREAM_BRCAST_DATA_SET);
    ("DOWNSTREAM_DATA_GET", DOWNSTREAM_DATA_GET);
    ("DOWNSTREAM_BRCAST_DATA_GET", DOWNSTREAM_BRCAST_DATA_GET);
    ("CONTROL_DATA", CONTROL_DATA);
    ("DOWNSTREAM_CTRL_DATA", DOWNSTREAM_CTRL_DATA);
    ("DOWNSTREAM_BRCAST_CTRL_DATA", DOWNSTREAM_BRCAST_CTRL_DATA);
    ("HA_DISCOVERY_MESSAGE", HA_DISCOVERY_MESSAGE);
    ("CLOCK_REQUEST", CLOCK_REQUEST);
    ("CLOCK_RESPONSE", CLOCK_RESPONSE);
    ("NODE_NAME_SET", NODE_NAME_SET);
    ("NODE_NAME_RESULT", NODE_NAME_RESULT);
    ("BROADCAST_KEY_REQUEST", BROADCAST_KEY_REQUEST);
    ("BROADCAST_KEY_RESPONSE", BROADCAST_KEY_RESPONSE);
    ("CLIENT_HELLO", CLIENT_HELLO);
    ("SERVER_HELLO", SERVER_HELLO);
    ("INVALIDATE_KEY", INVALIDATE_KEY) ]%list.

(** The Type and Tag columns of the wire-format table of the specification
    (section 6), row by row.  This is the specification's side of the
    comparison; it is not taken from the header. *)
Definition spec_wire_format_table : list (string * Z) :=
  [ ("CLIENT_HELLO", 255);
    ("SERVER_HELLO", 254);
    ("SENSOR_DATA", 1);
    ("SENSOR_BRCAST_DATA", 129);
    ("UNENCRYPTED_NODE_DATA", 17);
    ("DOWNSTREAM_DATA_SET", 2);
    ("DOWNSTREAM_DATA_GET", 18);
    ("DOWNSTREAM_BRCAST_DATA_SET", 130);
    ("DOWNSTREAM_BRCAST_DATA_GET", 146);
    ("CONTROL_DATA", 3);
    ("DOWNSTREAM_CTRL_DATA", 4);
    ("DOWNSTREAM_BRCAST_CTRL_DATA", 132);
    ("HA_DISCOVERY_MESSAGE", 8);
    ("CLOCK_REQUEST", 5);
    ("CLOCK_RESPONSE", 6);
    ("NODE_NAME_SET", 7);
    ("NODE_NAME_RESULT", 23);
    ("BROADCAST_KEY_REQUEST", 8);
    ("BROADCAST_KEY_RESPONSE", 24);
    ("INVALIDATE_KEY", 251) ]%list.

(** The tag a table lists for a type name (first row with that name). *)
Fixpoint listed_tag (tbl : list (string * Z)) (name : string) : option Z :=
  match tbl with
  | [] => None
  | (n, tag) :: tbl' => if decide (n = name) then Some tag else listed_tag tbl' name
  end.

(** Every enumerator has the tag the table lists under its name. *)
Definition enumerators_as_listed : Prop :=
  Forall (fun e => listed_tag spec_wire_format_table e.1 = Some e.2) enumerators.

(** Every row of the table is an enumerator with that value. *)
Definition table_rows_declared : Prop :=
  Forall (fun row => row ∈ enumerators) spec_wire_format_table.

End MessageType.

(** ** EnigmaIOTjsonController.h *)

Module JsonController.

(** [millis ()] returns [unsigned long], 32 bits wide on the ESP8266 and
    ESP32 targets the header accepts; the subtraction and the comparison of
    the guard in [callHAdiscoveryCalls] are carried out in that type. *)
Definition to_uint32 (z : Z) : Z := z mod 2 ^ 32.

(** The four delay constants come from [EnigmaIoTconfig.h], which is not
    among the sources; they are parameters of the model. *)
Record config : Set := mkConfig {
  HA_FIRST_DISCOVERY_DELAY : Z;
  HA_FIRST_DISCOVERY_DELAY_SLEEPY : Z;
  HA_NEXT_DISCOVERY_DELAY : Z;
  HA_NEXT_DISCOVERY_DELAY_SLEEPY : Z
}.

(** Modelled from the spec: the values of [HA_FIRST_DISCOVERY_DELAY_SLEEPY]
    and [HA_NEXT_DISCOVERY_DELAY_SLEEPY] of the missing [EnigmaIoTconfig.h].
    The specification says the cadence is "doubled when the peer is
    sleepy". *)
Definition sleepy_delays_doubled (c : config) : Prop :=
  HA_FIRST_DISCOVERY_DELAY_SLEEPY c = 2 * HA_FIRST_DISCOVERY_DELAY c
  /\ HA_NEXT_DISCOVERY_DELAY_SLEEPY c = 2 * HA_NEXT_DISCOVERY_DELAY c.

(** The delays are values of type [clock_t]. *)
Definition config_in_range (c : config) : Prop :=
  0 <= HA_FIRST_DISCOVERY_DELAY c < 2 ^ 32
  /\ 0 <= HA_FIRST_DISCOVERY_DELAY_SLEEPY c < 2 ^ 32
  /\ 0 <= HA_NEXT_DISCOVERY_DELAY c < 2 ^ 32
  /\ 0 <= HA_NEXT_DISCOVERY_DELAY_SLEEPY c < 2 ^ 32.

(** The delay the specification's cadence prescribes for the first item and
    for the following ones. *)
Definition first_item_delay (c : config) (sleepy : bool) : Z :=
  if sleepy then HA_FIRST_DISCOVERY_DELAY_SLEEPY c else HA_FIRST_DISCOVERY_DELAY c.

Definition next_item_delay (c : config) (sleepy : bool) : Z :=
  if sleepy then HA_NEXT_DISCOVERY_DELAY_SLEEPY c else HA_NEXT_DISCOVERY_DELAY c.

(** [nodePayloadEncoding_t] and [dataMessageType_t] are declared in
    [EnigmaIOTNode.h]; only the enumerators this header passes on are
    needed. *)
Inductive nodePayloadEncoding_t : Set := RAW | CAYENNELPP | MSG_PACK.

Inductive dataMessageType_t : Set := DATA_TYPE | HA_DISC_TYPE.

Section controller.
(** [World] is whatever the registered callbacks act on (the radio, the
    node runtime); [Call] names a queued discovery function. *)
Context {World Call : Type}.

(** [sendData_cb]: a [std::function] returning [bool], with its effect on
    the world made explicit. *)
Definition sendData_cb : Type :=
  list Z -> Z -> nodePayloadEncoding_t -> dataMessageType_t -> World -> bool * World.

(** [haDiscovery_call_t]: a [std::function<void ()>]; [None] is the empty
    function object, which [if (hacall)] tests for. *)
Definition haDiscovery_call_t : Type := option Call.

(** The data members of [EnigmaIOTjsonController] ([SUPPORT_HA_DISCOVERY]
    enabled).  [sendData = None] is the empty callback. *)
Record EnigmaIOTjsonController : Type := mkController {
  sendData : option sendData_cb;
  haCallQueue : list haDiscovery_call_t;
  doSendHAdiscovery : bool;
  sendHAtime : Z;
  sendHAdelay : Z
}.

(** A freshly constructed controller: [doSendHAdiscovery = false],
    [sendHAdelay = HA_FIRST_DISCOVERY_DELAY]; [sendHAtime] has no
    initialiser. *)
Definition fresh (c : config) (time0 : Z) : EnigmaIOTjsonController :=
  {| sendData := None;
     haCallQueue := [];
     doSendHAdiscovery := false;
     sendHAtime := time0;
     sendHAdelay := HA_FIRST_DISCOVERY_DELAY c |}.


Definition addHACall (HACall : haDiscovery_call_t) (ctl : EnigmaIOTjsonController)
  : EnigmaIOTjsonController :=
  {| sendData := sendData ctl;
     haCallQueue := haCallQueue ctl ++ [HACall];
     doSendHAdiscovery := doSendHAdiscovery ctl;
     sendHAtime := sendHAtime ctl;
     sendHAdelay := sendHAdelay ctl |}.

(** [connectInform]: [sleepy] is the answer of [getSleepy ()], [millis] the
    clock reading.  The start announcement is a pure virtual of the
    subclass and does not touch these members. *)
Definition connectInform (c : config) (sleepy : bool) (millis : Z)
    (ctl : EnigmaIOTjsonController) : EnigmaIOTjsonController :=
  {| sendData := sendData ctl;
     haCallQueue := haCallQueue ctl;
     doSendHAdiscovery := true;
     sendHAtime := millis;
     sendHAdelay :=
       if sleepy then HA_FIRST_DISCOVERY_DELAY_SLEEPY c else sendHAdelay ctl |}.

(** [callHAdiscoveryCalls]: [millis1] is the clock reading of the guard,
    [millis2] the reading taken after the call has run, [sleepy] the answer
    of [getSleepy ()] after the call.  The first component is the call that
    was executed, if any. *)
Definition callHAdiscoveryCalls (c : config) (millis1 millis2 : Z) (sleepy : bool)
    (ctl : EnigmaIOTjsonController) : option Call * EnigmaIOTjsonController :=
  if doSendHAdiscovery ctl
     && bool_decide (to_uint32 (millis1 - sendHAtime ctl) > sendHAdelay ctl)
  then
    let hacall : haDiscovery_call_t :=
      match haCallQueue ctl with
      | [] => None
      | f :: _ => f
      end in
    match hacall with
    | Some f =>
        (Some f,
         {| sendData := sendData ctl;
            haCallQueue := tail (haCallQueue ctl);
            doSendHAdiscovery := doSendHAdiscovery ctl;
            sendHAtime := millis2;
            sendHAdelay :=
              if sleepy then HA_NEXT_DISCOVERY_DELAY_SLEEPY c
              else HA_NEXT_DISCOVERY_DELAY c |})
    | None =>
        (None,
         {| sendData := sendData ctl;
            haCallQueue := haCallQueue ctl;
            doSendHAdiscovery := false;
            sendHAtime := sendHAtime ctl;
            sendHAdelay := sendHAdelay ctl |})
    end
  else (None, ctl).

(** The time the guard of [callHAdiscoveryCalls] measures. *)
Definition elapsed (millis : Z) (ctl : EnigmaIOTjsonController) : Z :=
  to_uint32 (millis - sendHAtime ctl).


(** *** Runs of the discovery machinery

    What happens to a controller over its life: the node runtime reports a
    registration, the main loop polls, the subclass queues a call. *)
Inductive event : Type :=
  | Connect (sleepy : bool) (millis : Z)
  | Poll (millis1 millis2 : Z) (sleepy : bool)
  | AddCall (f : haDiscovery_call_t).

Definition handle (c : config) (e : event) (ctl : EnigmaIOTjsonController)
  : option Call * EnigmaIOTjsonController :=
  match e with
  | Connect sleepy millis => (None, connectInform c sleepy millis ctl)
  | Poll millis1 millis2 sleepy => callHAdiscoveryCalls c millis1 millis2 sleepy ctl
  | AddCall f => (None, addHACall f ctl)
  end.

(** The calls executed over a run, in order, and the final state. *)
Fixpoint drive (c : config) (es : list event) (ctl : EnigmaIOTjsonController)
  : list Call * EnigmaIOTjsonController :=
  match es with
  | [] => ([], ctl)
  | e :: es' =>
      let r := handle c e ctl in
      let rs := drive c es' r.2 in
      (match r.1 with Some f => f :: rs.1 | None => rs.1 end, rs.2)
  end.

(** The function objects queued during a run, in order. *)
Fixpoint added (es : list event) : list haDiscovery_call_t :=
  match es with
  | [] => []
  | AddCall f :: es' => f :: added es'
  | _ :: es' => added es'
  end.

Definition is_connect (e : event) : bool :=
  match e with Connect _ _ => true | _ => false end.

(** Every poll of the run comes after the delay then in force. *)
Fixpoint all_due (c : config) (polls : list (Z * Z * bool))
    (ctl : EnigmaIOTjsonController) : Prop :=
  match polls with
  | [] => True
  | (millis1, millis2, sleepy) :: polls' =>
      elapsed millis1 ctl > sendHAdelay ctl
      /\ all_due c polls' (callHAdiscoveryCalls c millis1 millis2 sleepy ctl).2
  end.

Definition poll_events (polls : list (Z * Z * bool)) : list event :=
  (fun p => Poll p.1.1 p.1.2 p.2) <$> polls.

(** [DynamicJsonDocument] and its MessagePack serialiser belong to the
    ArduinoJson library.  [serializeMsgPack json cap] is the bytes written
    into a buffer of [cap] bytes; its length is the function's result. *)
Context {DynamicJsonDocument : Type}.
Context (measureMsgPack : DynamicJsonDocument -> Z).
Context (serializeMsgPack : DynamicJsonDocument -> Z -> list Z).

(** [sendJson].  The JSON text rendering only feeds a debug message.
    [malloc] is taken to succeed. *)
Definition sendJson (json : DynamicJsonDocument) (ctl : EnigmaIOTjsonController)
    (w : World) : bool * World :=
  let len := measureMsgPack json + 1 in
  let buffer := serializeMsgPack json len in
  let len := Z.of_nat (length buffer) in
  match sendData ctl with
  | Some cb => cb buffer len MSG_PACK DATA_TYPE w
  | None => (false, w)
  end.

(** The bytes [sendJson] hands to the callback. *)
Definition payload (json : DynamicJsonDocument) : list Z :=
  serializeMsgPack json (measureMsgPack json + 1).

(** What one invocation of the callback by [sendJson] does. *)
Definition invoke_once (cb : sendData_cb) (json : DynamicJsonDocument)
    (w : World) : bool * World :=
  cb (payload json) (Z.of_nat (length (payload json))) MSG_PACK DATA_TYPE w.

End controller.

Arguments EnigmaIOTjsonController : clear implicits.
Arguments sendData_cb : clear implicits.
Arguments event : clear implicits.

(** A callback made to count its own invocations. *)
Definition counting {World : Type} (cb : sendData_cb World)
  : sendData_cb (nat * World) :=
  fun data len enc ty w =>
    let r := cb data len enc ty w.2 in (r.1, (S w.1, r.2)).

(** Sample values for the constants of the missing configuration header,
    with the sleepy delays doubled as the specification says. *)
Definition sample_config : config :=
  {| HA_FIRST_DISCOVERY_DELAY := 5000;
     HA_FIRST_DISCOVERY_DELAY_SLEEPY := 10000;
     HA_NEXT_DISCOVERY_DELAY := 500;
     HA_NEXT_DISCOVERY_DELAY_SLEEPY := 1000 |}.

End JsonController.

(** ** Counter window of the gateway *)

Module Counter.

(** Counters are [uint16_t]. *)
Definition to_uint16 (z : Z) : Z := z mod 2 ^ 16.

(** The counter check belongs to the gateway's [processDataMessage], which
    is only declared in [EnigmaIOTGateway.h]; its body, in
    [EnigmaIOTGateway.cpp], is not among the sources.  The definitions below
    follow section 4.3 of the specification. *)

(** Modelled from the spec: the default window [W] of [processDataMessage]
    ("a configurable modular window W (default 256)"). *)
Definition DEFAULT_WINDOW : Z := 256.

(** Modelled from the spec: the distance [processDataMessage] measures,
    "(received - last_accepted) mod 2^16". *)
Definition counter_delta (received last_accepted : Z) : Z :=
  to_uint16 (received - last_accepted).

(** Modelled from the spec: the loss count [processDataMessage] reports,
    "lost = (received - last_accepted - 1) mod 2^16". *)
Definition lostMessages (received last_accepted : Z) : Z :=
  to_uint16 (received - last_accepted - 1).

(** Modelled from the spec: the acceptance test of [processDataMessage],
    "accept if (received - last_accepted) mod 2^16 is in (0, W]"; a
    rejected frame is dropped ([None]), an accepted one reports its loss
    count. *)
Definition checkCounter (W received last_accepted : Z) : option Z :=
  let delta := counter_delta received last_accepted in
  if bool_decide (0 < delta) && bool_decide (delta <= W)
  then Some (lostMessages received last_accepted)
  else None.

(** Modelled from the spec: the update of [last_msg_counter] ("last
    accepted upstream counter") by [processDataMessage]: it moves to the
    received counter on acceptance and stays put on rejection. *)
Definition receiveCounter (W received : Z) (last_accepted : Z)
  : option Z * Z :=
  match checkCounter W received last_accepted with
  | Some lost => (Some lost, received)
  | None => (None, last_accepted)
  end.

End Counter.

(** ** EnigmaIOTdebug.h *)

Module Debug.

(** The debug levels. *)
Definition NO_DEBUG : Z := 0.
Definition D_ERROR : Z := 1.
Definition WARN : Z := 2.
Definition INFO : Z := 3.
Definition DBG : Z := 4.
Definition VERBOSE : Z := 5.

(** The five logging macros. *)
Inductive debug_macro : Set :=
  | DEBUG_VERBOSE | DEBUG_DBG | DEBUG_INFO | DEBUG_WARN | DEBUG_ERROR.

(** The ESP-IDF logging calls the ESP32 branch maps the macros to. *)
Inductive esp_log : Set :=
  | ESP_LOGV | ESP_LOGD | ESP_LOGI | ESP_LOGW | ESP_LOGE.

(** What a macro is defined as: the empty replacement list, a line on
    [DEBUG_ESP_PORT] starting with a letter, or an ESP-IDF logging call;
    [NotDefined] when the header defines nothing under that name. *)
Inductive expansion : Set :=
  | Silent
  | SerialLine (letter : string)
  | EspLog (call : esp_log)
  | NotDefined.

(** The level named in the [#if DEBUG_LEVEL >= ...] around each macro. *)
Definition level_of (m : debug_macro) : Z :=
  match m with
  | DEBUG_VERBOSE => VERBOSE
  | DEBUG_DBG => DBG
  | DEBUG_INFO => INFO
  | DEBUG_WARN => WARN
  | DEBUG_ERROR => D_ERROR
  end.

Definition letter_of (m : debug_macro) : string :=
  match m with
  | DEBUG_VERBOSE => "V "
  | DEBUG_DBG => "D "
  | DEBUG_INFO => "I "
  | DEBUG_WARN => "W "
  | DEBUG_ERROR => "E "
  end.

Definition esp_log_of (m : debug_macro) : esp_log :=
  match m with
  | DEBUG_VERBOSE => ESP_LOGV
  | DEBUG_DBG => ESP_LOGD
  | DEBUG_INFO => ESP_LOGI
  | DEBUG_WARN => ESP_LOGW
  | DEBUG_ERROR => ESP_LOGE
  end.

(** The preprocessor configuration the header looks at. *)
Record build : Set := mkBuild {
  DEBUG_ESP_PORT : bool;   (* is the macro defined? *)
  ESP8266 : bool;
  ESP32 : bool;
  DEBUG_LEVEL : Z
}.

(** The definition a macro ends up with, following the conditional
    directives of the header from top to bottom. *)
Definition expansion_of (b : build) (m : debug_macro) : expansion :=
  if DEBUG_ESP_PORT b then
    if ESP8266 b then
      if decide (DEBUG_LEVEL b >= level_of m) then SerialLine (letter_of m)
      else Silent
    else if ESP32 b then EspLog (esp_log_of m)
    else NotDefined
  else Silent.

(** A macro produces output on the serial port. *)
Definition prints (b : build) (m : debug_macro) : Prop :=
  exists letter, expansion_of b m = SerialLine letter.

End Debug.

(** * Properties *)

(** ** Array cells *)

Module MemFacts.
Import Mem.
Section cells.
Context {A : Type}.
Implicit Types (buf : list A) (i j : Z) (x : A).

Lemma length_store buf i x : length (store buf i x) = length buf.
Proof. unfold store. case_decide; [apply length_insert | done]. Qed.

Lemma load_store_eq buf i x :
0 <= i < Z.of_nat (length buf) -> load (store buf i x) i = Some x.
Proof.
intros [Hi Hlt]. unfold load, store.
rewrite !decide_True by done.
apply list_lookup_insert_eq. lia.
Qed.

Lemma load_store_ne buf i j x :
0 <= i -> 0 <= j -> i <> j -> load (store buf i x) j = load buf j.
Proof.
intros Hi Hj Hne. unfold load, store.
rewrite !decide_True by done.
apply list_lookup_insert_ne. lia.
Qed.

Lemma load_is_Some buf i :
0 <= i < Z.of_nat (length buf) -> is_Some (load buf i).
Proof.
intros [Hi Hlt]. unfold load. rewrite decide_True by done.
apply lookup_lt_is_Some. lia.
Qed.
End cells.
End MemFacts.

(** ** The ring buffer *)

Module RingBufferFacts.
Import Mem MemFacts RingBuffer.

(** Reduction of a remainder whose argument is less than two moduli away
    from zero, the only shape index arithmetic produces here. *)
Lemma mod_once (m a : Z) :
  0 < m -> 0 <= a < 2 * m ->
  (a < m /\ a mod m = a) \/ (m <= a /\ a mod m = a - m).
Proof.
  intros Hm Ha. destruct (Z_lt_ge_dec a m) as [Hlt | Hge].
  - left. split; [done | apply Z.mod_small; lia].
  - right. split; [lia |].
    replace a with ((a - m) + 1 * m) at 1 by lia.
    rewrite Z.mod_add by lia. apply Z.mod_small. lia.
Qed.

Section facts.
Context {Telement : Type}.
Abbreviation ring := (EnigmaIOTRingBuffer Telement).
Implicit Types (rb : ring) (item : Telement).

Lemma advance_spec (i m : Z) :
  0 < m -> 0 <= i < m ->
  advance i m = (i + 1) mod m /\ 0 <= advance i m < m.
Proof.
  intros Hm Hi. unfold advance. case_decide as Hge.
  - assert (i + 1 = m) as -> by lia.
    rewrite Z.rem_same, Z.mod_same by lia. lia.
  - rewrite Z.mod_small by lia. lia.
Qed.

Lemma create_inv (range : Z) : 0 < range -> ring_inv (create (Telement:=Telement) range).
Proof.
  intros Hr. split; simpl; try lia.
  - rewrite length_replicate. lia.
  - rewrite Z.add_0_r, Z.mod_0_l; lia.
Qed.

Lemma shouldDelete_same_ring rb : same_ring rb (shouldDeleteOverflowBuffer rb).
Proof. unfold shouldDeleteOverflowBuffer, same_ring. by destruct (deleteOverflow rb). Qed.

Lemma shouldDelete_overflow_index rb :
  overflow_index (shouldDeleteOverflowBuffer rb) = overflow_index rb.
Proof. unfold shouldDeleteOverflowBuffer. by destruct (deleteOverflow rb). Qed.

Lemma pushInOverFlowBuffer_same_ring rb : same_ring rb (pushInOverFlowBuffer rb).
Proof.
  unfold pushInOverFlowBuffer.
  pose proof (shouldDelete_same_ring rb) as Hs.
  destruct (overflow_branch_of _); unfold same_ring in *; simpl; done.
Qed.

Lemma same_ring_inv rb rb' : same_ring rb rb' -> ring_inv rb -> ring_inv rb'.
Proof.
  intros (Hm & Hn & Hr & Hw & Hb) [].
  split; rewrite ?Hm, ?Hn, ?Hr, ?Hw, ?Hb; done.
Qed.

Lemma after_overflow_same_ring rb : same_ring rb (after_overflow rb).
Proof.
  unfold after_overflow. destruct (_ && _).
  - apply pushInOverFlowBuffer_same_ring.
  - by unfold same_ring.
Qed.

(** [push] spelled out on the fields of the main ring. *)
Lemma push_fields item rb :
  let rb' := (push item rb).2 in
  maxSize rb' = maxSize rb
  /\ numElements rb' = (if isFull rb then numElements rb else numElements rb + 1)
  /\ readIndex rb' =
       (if isFull rb then advance (readIndex rb) (maxSize rb) else readIndex rb)
  /\ writeIndex rb' = advance (writeIndex rb) (maxSize rb)
  /\ buffer rb' = store (buffer rb) (writeIndex rb) (Some item).
Proof.
  destruct (after_overflow_same_ring rb) as (Em & En & Er & Ew & Eb).
  unfold push; fold (after_overflow rb); simpl.
  rewrite Em, En, Er, Ew, Eb. done.
Qed.

Lemma push_inv item rb : ring_inv rb -> ring_inv (push item rb).2.
Proof.
  intros [Hm Hl Hn Hr Hw Hd].
  destruct (push_fields item rb) as (Em & En & Er & Ew & Eb).
  destruct (advance_spec (writeIndex rb) (maxSize rb) Hm Hw) as [Haw Hwr].
  destruct (advance_spec (readIndex rb) (maxSize rb) Hm Hr) as [Har Hrr].
  unfold isFull in *.
  split; rewrite ?Em, ?En, ?Er, ?Ew, ?Eb, ?length_store; try done.
  - case_bool_decide; lia.
  - case_bool_decide; [done | lia].
  - rewrite Haw, Hd, Z.add_mod_idemp_l by lia.
    case_bool_decide as Hfull.
    + rewrite Har, Hfull, Z.add_mod_idemp_l by lia.
      replace (readIndex rb + 1 + maxSize rb)
        with (readIndex rb + maxSize rb + 1) by lia. done.
    + f_equal. lia.
Qed.

Lemma pop_inv rb : ring_inv rb -> ring_inv (pop rb).2.
Proof.
  intros [Hm Hl Hn Hr Hw Hd]. unfold pop, empty.
  case_bool_decide as Hempty; simpl; [done |].
  destruct (advance_spec (readIndex rb) (maxSize rb) Hm Hr) as [Har Hrr].
  split; simpl; try done; try lia.
  rewrite Har, Z.add_mod_idemp_l, Hd by lia. f_equal. lia.
Qed.

Lemma frontOverflowBuffer_same_ring rb : same_ring rb (frontOverflowBuffer rb).2.
Proof.
  unfold frontOverflowBuffer. repeat case_decide; simpl.
  - apply shouldDelete_same_ring.
  - by unfold same_ring.
  - by unfold same_ring.
Qed.

Lemma front_same_ring rb : same_ring rb (front rb).2.
Proof.
  unfold front. pose proof (shouldDelete_same_ring rb) as Hs.
  destruct (negb _); simpl; [done |].
  pose proof (frontOverflowBuffer_same_ring (shouldDeleteOverflowBuffer rb)) as Hf.
  unfold same_ring in *. intuition congruence.
Qed.

Lemma front_inv rb : ring_inv rb -> ring_inv (front rb).2.
Proof. apply same_ring_inv, front_same_ring. Qed.

Lemma step_inv o rb : ring_inv rb -> ring_inv (step o rb).2.
Proof.
  destruct o; simpl; [apply push_inv | apply pop_inv | apply front_inv].
Qed.

(** *** The queue held between the two indices *)

Lemma length_contents_from (buf : list (cell Telement)) (m i : Z) (n : nat) :
  length (contents_from (Telement:=Telement) buf m i n) = n.
Proof. revert i. induction n as [| n IH]; intros i; simpl; [done | by rewrite IH]. Qed.

Lemma contents_from_snoc (buf : list (cell Telement)) (m i : Z) (n : nat) :
  0 < m -> 0 <= i < m ->
  contents_from (Telement:=Telement) buf m i (S n)
  = contents_from buf m i n ++ [read_cell buf ((i + Z.of_nat n) mod m)].
Proof.
  intros Hm. revert i. induction n as [| n IH]; intros i Hi.
  - simpl. rewrite Z.add_0_r, Z.mod_small by lia. done.
  - destruct (advance_spec i m Hm Hi) as [Hadv Hrange].
    change (contents_from buf m i (S (S n)))
      with (read_cell buf i :: contents_from buf m (advance i m) (S n)).
    rewrite IH by done. simpl. do 3 f_equal.
    rewrite Hadv, Z.add_mod_idemp_l by lia.
    replace (i + Z.of_nat (S n)) with (i + 1 + Z.of_nat n) by lia. done.
Qed.

Lemma contents_from_store (buf : list (cell Telement)) (m i : Z) (n : nat) (c : cell Telement) :
  0 < m -> 0 <= i < m -> Z.of_nat n < m ->
  contents_from (Telement:=Telement) (store buf ((i + Z.of_nat n) mod m) c) m i n
  = contents_from buf m i n.
Proof.
  intros Hm. revert i. induction n as [| n IH]; intros i Hi Hn; [done |].
  destruct (advance_spec i m Hm Hi) as [Hadv Hrange].
  assert ((i + Z.of_nat (S n)) mod m = (advance i m + Z.of_nat n) mod m) as Hw.
  { rewrite Hadv, Z.add_mod_idemp_l by lia.
    replace (i + Z.of_nat (S n)) with (i + 1 + Z.of_nat n) by lia. done. }
  simpl contents_from. f_equal.
  - assert (0 <= (i + Z.of_nat (S n)) mod m /\ (i + Z.of_nat (S n)) mod m <> i)
      as [Hpos Hne].
    { destruct (mod_once m (i + Z.of_nat (S n)) Hm ltac:(lia)) as [[? ->] | [? ->]]; lia. }
    unfold read_cell. rewrite load_store_ne by lia. done.
  - rewrite Hw. apply IH; [done | lia].
Qed.

Lemma length_contents rb : length (contents rb) = Z.to_nat (numElements rb).
Proof. apply length_contents_from. Qed.

Lemma isFull_false_push item rb :
  isFull rb = false ->
  push item rb
  = (true,
     {| maxSize := maxSize rb;
        numElements := numElements rb + 1;
        readIndex := readIndex rb;
        writeIndex := advance (writeIndex rb) (maxSize rb);
        buffer := store (buffer rb) (writeIndex rb) (Some item);
        overflowBuffer := overflowBuffer rb;
        overflow_index := overflow_index rb;
        deleteOverflow := deleteOverflow rb |}).
Proof. intros Hnf. unfold push. rewrite Hnf. done. Qed.

Lemma contents_push item rb :
  ring_inv rb -> isFull rb = false ->
  contents (push item rb).2 = contents rb ++ [Some item].
Proof.
  intros [Hm Hl Hn Hr Hw Hd] Hnf. rewrite isFull_false_push by done.
  unfold isFull in Hnf. apply bool_decide_eq_false in Hnf.
  unfold contents; simpl.
  replace (Z.to_nat (numElements rb + 1)) with (S (Z.to_nat (numElements rb))) by lia.
  rewrite contents_from_snoc by done.
  rewrite Z2Nat.id by lia. rewrite <- Hd.
  rewrite Hd at 1. rewrite <- (Z2Nat.id (numElements rb)) at 1 by lia.
  rewrite contents_from_store by lia.
  unfold read_cell. rewrite load_store_eq by lia. done.
Qed.

Lemma contents_pop rb :
  empty rb = false ->
  pop rb
  = (true,
     {| maxSize := maxSize rb;
        numElements := numElements rb - 1;
        readIndex := advance (readIndex rb) (maxSize rb);
        writeIndex := writeIndex rb;
        buffer := buffer rb;
        overflowBuffer := overflowBuffer rb;
        overflow_index := overflow_index rb;
        deleteOverflow := deleteOverflow rb |})
  /\ (0 <= numElements rb -> contents (pop rb).2 = tail (contents rb)).
Proof.
  intros Hne. unfold pop. rewrite Hne. split; [done |]. intros Hn.
  unfold empty in Hne. apply bool_decide_eq_false in Hne.
  unfold contents; simpl.
  replace (Z.to_nat (numElements rb)) with (S (Z.to_nat (numElements rb - 1))) by lia.
  done.
Qed.

Lemma contents_head rb :
  0 < numElements rb ->
  head (contents rb) = Some (read_cell (buffer rb) (readIndex rb)).
Proof.
  intros Hn. unfold contents.
  replace (Z.to_nat (numElements rb)) with (S (Z.to_nat (numElements rb - 1))) by lia.
  done.
Qed.

(** *** First-in first-out behaviour *)

Lemma represents_length rb q :
  represents rb q -> numElements rb = Z.of_nat (length q).
Proof.
  intros ([] & _ & _ & Hc).
  apply (f_equal length) in Hc.
  rewrite length_contents, length_map in Hc. lia.
Qed.

Lemma represents_create range :
  0 < range -> represents (Telement:=Telement) (create range) [].
Proof. intros Hr. split; [by apply create_inv | done]. Qed.

Lemma represents_push item rb q :
  represents rb q -> isFull rb = false ->
  (push item rb).1 = true /\ represents (push item rb).2 (q ++ [item]).
Proof.
  intros (Hinv & Hidx & Hdel & Hc) Hnf. split.
  { by rewrite isFull_false_push. }
  split; [by apply push_inv |].
  rewrite contents_push, Hc, map_app by done.
  rewrite isFull_false_push by done. done.
Qed.

Lemma represents_pop rb q :
  represents rb q ->
  (pop rb).1 = negb (bool_decide (q = [])) /\ represents (pop rb).2 (tail q).
Proof.
  intros Hrep. pose proof (represents_length _ _ Hrep) as Hlen.
  destruct Hrep as (Hinv & Hidx & Hdel & Hc).
  destruct q as [| x q].
  - simpl in Hlen. unfold pop, empty. rewrite bool_decide_eq_true_2 by done.
    done.
  - simpl in Hlen.
    assert (empty rb = false) as Hne.
    { unfold empty. apply bool_decide_eq_false. lia. }
    destruct (contents_pop rb Hne) as [Hpop Htail].
    split; [by rewrite Hpop |].
    split; [by apply pop_inv |].
    rewrite Htail, Hc by lia. rewrite Hpop. done.
Qed.

Lemma represents_front rb q :
  represents rb q ->
  (front rb).2 = rb /\ mjoin (deref rb (front rb).1) = head q.
Proof.
  intros Hrep. pose proof (represents_length _ _ Hrep) as Hlen.
  destruct Hrep as (Hinv & Hidx & Hdel & Hc).
  unfold front, shouldDeleteOverflowBuffer. rewrite Hdel.
  destruct q as [| x q]; simpl in Hlen.
  - unfold empty. rewrite bool_decide_eq_true_2 by done. simpl.
    unfold frontOverflowBuffer, shouldDeleteOverflowBuffer.
    rewrite decide_True, Hdel by done. done.
  - unfold empty. rewrite bool_decide_eq_false_2 by lia. simpl.
    split; [done |].
    pose proof (contents_head rb ltac:(lia)) as Hh. rewrite Hc in Hh.
    simpl in Hh. injection Hh as Hh. unfold read_cell in Hh.
    destruct Hinv as [Hm Hl Hn Hr Hw Hd].
    destruct (load_is_Some (buffer rb) (readIndex rb) ltac:(lia)) as [c Hload].
    rewrite Hload in *. simpl in *. by subst c.
Qed.

Lemma represents_step o rb q :
  represents rb q ->
  match o with Push _ => isFull rb = false | _ => True end ->
  seen (step o rb).1 = (fifo_step o q).1
  /\ represents (step o rb).2 (fifo_step o q).2.
Proof.
  intros Hrep Hok. destruct o as [item | |]; cbn [step fifo_step seen fst snd].
  - destruct (represents_push item rb q Hrep Hok) as [-> ?]. done.
  - destruct (represents_pop rb q Hrep) as [-> ?]. done.
  - destruct (represents_front rb q Hrep) as [Hstate Hfront].
    rewrite Hstate. split; [f_equal; exact Hfront | done].
Qed.

(** A run that overwrites nothing answers like the reference queue. *)
Lemma run_refines_fifo ops : forall rb q,
  represents rb q -> no_overwrite ops rb ->
  map seen (run ops rb).1 = (fifo_run ops q).1.
Proof.
  induction ops as [| o ops IH]; intros rb q Hrep Hno; [done |].
  destruct Hno as [Hok Hno].
  destruct (represents_step o rb q Hrep Hok) as [Hseen Hrep'].
  simpl. rewrite Hseen. f_equal. by apply IH.
Qed.

Lemma never_full_no_overwrite ops : forall rb,
  isFull rb = false -> never_full ops rb -> no_overwrite ops rb.
Proof.
  induction ops as [| o ops IH]; intros rb Hnf Hnever; [done |].
  destruct Hnever as [Hnf' Hnever]. split.
  - by destruct o.
  - by apply IH.
Qed.

Lemma isFull_create range : 0 < range -> isFull (create (Telement:=Telement) range) = false.
Proof. intros Hr. unfold isFull. apply bool_decide_eq_false. simpl. lia. Qed.

(** C4: on a ring that never becomes full, the answers of [push], [pop]
    and [front] over any sequence of operations are those of a
    first-in first-out queue: [front] shows, and [pop] removes, the stored
    elements in the order in which they were pushed. *)
Theorem fifo_order_while_never_full (range : Z) (ops : list (operation Telement)) :
  0 < range ->
  never_full ops (create range) ->
  map seen (run ops (create range)).1 = (fifo_run ops []).1.
Proof.
  intros Hr Hnever. apply run_refines_fifo.
  - by apply represents_create.
  - apply never_full_no_overwrite; [by apply isFull_create | done].
Qed.

(** *** [push] and [pop] on the main ring *)

(** On a full well-formed ring the two indices coincide: the next cell to
    write is the one holding the oldest element. *)
Lemma full_indices_meet rb :
  ring_inv rb -> isFull rb = true -> writeIndex rb = readIndex rb.
Proof.
  intros [Hm Hl Hn Hr Hw Hd] Hfull.
  unfold isFull in Hfull. apply bool_decide_eq_true in Hfull.
  rewrite Hd, Hfull.
  destruct (mod_once (maxSize rb) (readIndex rb + maxSize rb) Hm ltac:(lia))
    as [[? ->] | [? ->]]; lia.
Qed.

Lemma contents_push_full item rb :
  ring_inv rb -> isFull rb = true ->
  contents (push item rb).2 = tail (contents rb) ++ [Some item].
Proof.
  intros Hinv Hfull.
  pose proof (full_indices_meet rb Hinv Hfull) as Hwr.
  destruct Hinv as [Hm Hl Hn Hr Hw Hd].
  destruct (push_fields item rb) as (Em & En & Er & Ew & Eb).
  rewrite Hfull in En, Er.
  unfold isFull in Hfull. apply bool_decide_eq_true in Hfull.
  destruct (advance_spec (readIndex rb) (maxSize rb) Hm Hr) as [Har Hrr].
  assert ((advance (readIndex rb) (maxSize rb) + Z.of_nat (Z.to_nat (maxSize rb - 1)))
            mod maxSize rb = readIndex rb) as Hback.
  { rewrite Z2Nat.id, Har, Z.add_mod_idemp_l by lia.
    replace (readIndex rb + 1 + (maxSize rb - 1))
      with (readIndex rb + 1 * maxSize rb) by lia.
    rewrite Z.mod_add by lia. apply Z.mod_small. lia. }
  unfold contents. rewrite Em, En, Er, Eb, Hfull, Hwr.
  replace (Z.to_nat (maxSize rb)) with (S (Z.to_nat (maxSize rb - 1))) by lia.
  rewrite contents_from_snoc by done.
  rewrite Hback. rewrite <- Hback at 1.
  rewrite contents_from_store by lia.
  unfold read_cell at 1. rewrite load_store_eq by lia. done.
Qed.

(** C9: on a well-formed ring, [push] returns [true] exactly when the ring
    was not full; afterwards the size is the smaller of the previous size
    plus one and the capacity; and when the ring was full, both indices move
    on by one modulo the capacity, the ring stays full, and the new item
    takes the cell of the oldest element, which leaves the queue. *)
Theorem push_spec item rb :
  ring_inv rb ->
  let rb' := (push item rb).2 in
  ((push item rb).1 = true <-> isFull rb = false)
  /\ maxSize rb' = maxSize rb
  /\ size rb' = Z.min (size rb + 1) (maxSize rb)
  /\ (isFull rb = true ->
        readIndex rb' = (readIndex rb + 1) mod maxSize rb
        /\ writeIndex rb' = (writeIndex rb + 1) mod maxSize rb
        /\ isFull rb' = true
        /\ writeIndex rb = readIndex rb
        /\ load (buffer rb') (readIndex rb) = Some (Some item)
        /\ contents rb' = tail (contents rb) ++ [Some item]).
Proof.
  intros Hinv rb'. pose proof Hinv as [Hm Hl Hn Hr Hw Hd].
  destruct (push_fields item rb) as (Em & En & Er & Ew & Eb).
  fold rb' in Em, En, Er, Ew, Eb.
  destruct (advance_spec (writeIndex rb) (maxSize rb) Hm Hw) as [Haw _].
  destruct (advance_spec (readIndex rb) (maxSize rb) Hm Hr) as [Har _].
  split; [| split; [done | split]].
  - unfold push; simpl. by destruct (isFull rb).
  - unfold size. rewrite En. unfold isFull. case_bool_decide; lia.
  - intros Hfull. rewrite Hfull in En, Er.
    pose proof (full_indices_meet rb Hinv Hfull) as Hwr.
    pose proof Hfull as Hfull'.
    unfold isFull in Hfull'. apply bool_decide_eq_true in Hfull'.
    repeat split.
    + by rewrite Er.
    + by rewrite Ew.
    + unfold isFull. apply bool_decide_eq_true. by rewrite En, Em.
    + done.
    + rewrite Eb, Hwr. apply load_store_eq. lia.
    + by apply contents_push_full.
Qed.

(** C10: [pop] on an empty ring returns [false] and changes nothing; on a
    non-empty well-formed ring it returns [true], moves the read index on by
    one modulo the capacity and takes one off the element count, the write
    index staying where it is. *)
Theorem pop_spec rb :
  ring_inv rb ->
  let rb' := (pop rb).2 in
  if empty rb then
    (pop rb).1 = false
    /\ readIndex rb' = readIndex rb
    /\ writeIndex rb' = writeIndex rb
    /\ numElements rb' = numElements rb
    /\ rb' = rb
  else
    (pop rb).1 = true
    /\ readIndex rb' = (readIndex rb + 1) mod maxSize rb
    /\ writeIndex rb' = writeIndex rb
    /\ numElements rb' = numElements rb - 1.
Proof.
  intros [Hm Hl Hn Hr Hw Hd] rb'. subst rb'. unfold pop.
  destruct (empty rb); simpl; [done |].
  destruct (advance_spec (readIndex rb) (maxSize rb) Hm Hr) as [Har _].
  done.
Qed.

(** *** Runs of pushes with an idle consumer *)

Lemma producer_inv_create range :
  0 < range -> producer_inv (Telement:=Telement) (create range).
Proof.
  intros Hr. split; [by apply create_inv |].
  split; [| done]. unfold overflow_inv. simpl.
  unfold MAX_OVERFLOW_BUFFER_SIZE. lia.
Qed.

Lemma to_uint8_small z : 0 <= z < 256 -> to_uint8 z = z.
Proof. intros Hz. unfold to_uint8. apply Z.mod_small. lia. Qed.

Lemma pushInOverFlowBuffer_overflow rb :
  overflow_inv rb -> deleteOverflow rb = false ->
  overflow_inv (pushInOverFlowBuffer rb)
  /\ deleteOverflow (pushInOverFlowBuffer rb) = false.
Proof.
  unfold overflow_inv, MAX_OVERFLOW_BUFFER_SIZE. intros Hov Hdel.
  unfold pushInOverFlowBuffer, shouldDeleteOverflowBuffer, overflow_branch_of.
  rewrite Hdel. unfold MAX_OVERFLOW_BUFFER_SIZE.
  repeat case_decide; simpl; rewrite ?to_uint8_small by lia; split; first [done | lia].
Qed.

Lemma push_overflow_fields item rb :
  overflowBuffer (push item rb).2 = overflowBuffer (after_overflow rb)
  /\ overflow_index (push item rb).2 = overflow_index (after_overflow rb)
  /\ deleteOverflow (push item rb).2 = deleteOverflow (after_overflow rb).
Proof. done. Qed.

Lemma push_producer_inv item rb : producer_inv rb -> producer_inv (push item rb).2.
Proof.
  intros (Hinv & Hov & Hdel). split; [by apply push_inv |].
  destruct (push_overflow_fields item rb) as (_ & Ei & Ed).
  unfold overflow_inv. rewrite Ei, Ed. unfold after_overflow.
  destruct (_ && _); [| done].
  by apply pushInOverFlowBuffer_overflow.
Qed.

Lemma push_all_producer_inv items : forall rb,
  producer_inv rb -> producer_inv (push_all items rb).
Proof.
  induction items as [| item items IH]; intros rb Hinv; [done |].
  apply IH. by apply push_producer_inv.
Qed.

Lemma push_all_maxSize items : forall rb, maxSize (push_all items rb) = maxSize rb.
Proof.
  induction items as [| item items IH]; intros rb; [done |].
  change (push_all (item :: items) rb) with (push_all items (push item rb).2).
  rewrite IH. by destruct (push_fields item rb) as (-> & _).
Qed.

(** C1, as the code has it: after any run of pushes on a fresh ring, the
    main ring holds at most [maxSize] elements and the overflow area at
    most 15; once the ring is full and the overflow area holds 15 entries, a
    further push discards the displaced frame: it takes the discarding
    branch and leaves the overflow area and the size as they were. *)
Theorem push_all_bounded (range : Z) (items : list Telement) :
  0 < range ->
  let rb := push_all items (create range) in
  maxSize rb = range
  /\ 0 <= size rb <= maxSize rb
  /\ 0 <= overflow_count rb <= MAX_OVERFLOW_BUFFER_SIZE
  /\ (forall item,
        isFull rb = true -> overflow_count rb = MAX_OVERFLOW_BUFFER_SIZE ->
        push_discards rb = true
        /\ overflowBuffer (push item rb).2 = overflowBuffer rb
        /\ overflow_index (push item rb).2 = overflow_index rb
        /\ size (push item rb).2 = size rb).
Proof.
  intros Hr rb.
  destruct (push_all_producer_inv items _ (producer_inv_create range Hr))
    as (Hinv & Hov & Hdel).
  fold rb in Hinv, Hov, Hdel. pose proof Hinv as [Hm Hl Hn Hrd Hw Hd].
  unfold overflow_inv, MAX_OVERFLOW_BUFFER_SIZE in Hov.
  split; [apply push_all_maxSize |]. split; [done |].
  assert (0 <= overflow_count rb <= MAX_OVERFLOW_BUFFER_SIZE) as Hcount.
  { unfold overflow_count, empty2, MAX_OVERFLOW_BUFFER_SIZE.
    case_bool_decide; lia. }
  split; [done |].
  intros item Hfull Hfifteen.
  assert (overflow_index rb = 15) as Hidx.
  { revert Hfifteen. unfold overflow_count, empty2, MAX_OVERFLOW_BUFFER_SIZE.
    case_bool_decide; lia. }
  pose proof (full_indices_meet rb Hinv Hfull) as Hwr.
  assert (overflow_branch_of rb = OverflowDiscarded) as Hbranch.
  { unfold overflow_branch_of, MAX_OVERFLOW_BUFFER_SIZE. rewrite Hidx. done. }
  assert (shouldDeleteOverflowBuffer rb = rb) as Hsd.
  { unfold shouldDeleteOverflowBuffer. by rewrite Hdel. }
  assert (after_overflow rb = rb) as Hafter.
  { unfold after_overflow, pushInOverFlowBuffer.
    rewrite Hfull, Hwr, bool_decide_eq_true_2, Hsd, Hbranch by done. done. }
  destruct (push_overflow_fields item rb) as (Eb & Ei & _).
  rewrite Hafter in Eb, Ei.
  destruct (push_fields item rb) as (_ & En & _). rewrite Hfull in En.
  repeat split; try done.
  unfold push_discards.
  rewrite Hfull, Hwr, Hsd, Hbranch, !bool_decide_eq_true_2 by done. done.
Qed.

Lemma run_inv ops : forall rb, ring_inv rb -> ring_inv (run ops rb).2.
Proof.
  induction ops as [| o ops IH]; intros rb Hinv; [done |].
  simpl. apply IH. by apply step_inv.
Qed.

(** Every state a client can bring a ring of positive capacity into is
    well formed. *)
Lemma reachable_inv range (ops : list (operation Telement)) :
  0 < range -> ring_inv (run ops (create range)).2.
Proof. intros Hr. by apply run_inv, create_inv. Qed.

(** *** The overflow area *)

(** The first push onto a full ring allocates the overflow area and stores
    nothing in it. *)
Lemma first_overflow_stores_nothing item rb :
  ring_inv rb -> isFull rb = true ->
  overflow_index rb = MAX_OVERFLOW_BUFFER_SIZE + 1 ->
  overflowBuffer (push item rb).2
  = Some (replicate (Z.to_nat MAX_OVERFLOW_BUFFER_SIZE) None)
  /\ overflow_index (push item rb).2 = 0.
Proof.
  intros Hinv Hfull Hidx.
  pose proof (full_indices_meet rb Hinv Hfull) as Hwr.
  destruct (push_overflow_fields item rb) as (-> & -> & _).
  unfold after_overflow, pushInOverFlowBuffer, overflow_branch_of.
  rewrite Hfull, Hwr, bool_decide_eq_true_2 by done. simpl.
  rewrite shouldDelete_overflow_index, decide_True by done. done.
Qed.

(** Later pushes onto a full ring copy the oldest element into the next
    free slot of the overflow area, while there is one. *)
Lemma later_overflow_stores_victim item rb arr :
  ring_inv rb -> isFull rb = true -> deleteOverflow rb = false ->
  overflowBuffer rb = Some arr ->
  0 <= overflow_index rb <= MAX_OVERFLOW_BUFFER_SIZE - 1 ->
  overflowBuffer (push item rb).2
  = Some (store arr (overflow_index rb) (read_cell (buffer rb) (readIndex rb)))
  /\ overflow_index (push item rb).2 = overflow_index rb + 1.
Proof.
  intros Hinv Hfull Hdel Harr Hidx.
  pose proof (full_indices_meet rb Hinv Hfull) as Hwr.
  destruct (push_overflow_fields item rb) as (-> & -> & _).
  unfold after_overflow, pushInOverFlowBuffer, overflow_branch_of.
  rewrite Hfull, Hwr, bool_decide_eq_true_2 by done. simpl.
  unfold shouldDeleteOverflowBuffer. rewrite Hdel.
  unfold MAX_OVERFLOW_BUFFER_SIZE in *.
  rewrite decide_False, decide_False by lia. simpl.
  rewrite Harr, Hwr, to_uint8_small by lia. done.
Qed.

(** With the main ring empty, [front] stays inside the overflow array as
    long as [overflow_index] is a count between 1 and 15, and returns
    [NULL] when it is the "none" mark. *)
Lemma front_overflow_in_bounds rb :
  empty rb = true ->
  1 <= overflow_index rb <= MAX_OVERFLOW_BUFFER_SIZE + 1 ->
  (front rb).1 = NULL
  \/ exists i, (front rb).1 = OverflowAt i /\ 0 <= i <= MAX_OVERFLOW_BUFFER_SIZE - 1.
Proof.
  unfold MAX_OVERFLOW_BUFFER_SIZE. intros Hempty Hidx.
  assert (empty (shouldDeleteOverflowBuffer rb) = true) as Hempty'.
  { unfold empty. by destruct (shouldDelete_same_ring rb) as (_ & -> & _). }
  unfold front. rewrite Hempty'. simpl.
  unfold frontOverflowBuffer. rewrite shouldDelete_overflow_index.
  unfold MAX_OVERFLOW_BUFFER_SIZE.
  repeat case_decide; simpl; [by left | right; exists 0; split; [done | lia] |].
  right. eexists. split; [done |]. rewrite to_uint8_small by lia. lia.
Qed.

(** With the main ring empty and [overflow_index] at 0, [front] returns
    the address of [overflowBuffer[255]]. *)
Lemma front_overflow_index_zero rb :
  empty rb = true -> overflow_index rb = 0 ->
  (front rb).1 = OverflowAt 255 /\ overflow_index (front rb).2 = 255.
Proof.
  intros Hempty Hidx.
  assert (empty (shouldDeleteOverflowBuffer rb) = true) as Hempty'.
  { unfold empty. by destruct (shouldDelete_same_ring rb) as (_ & -> & _). }
  unfold front. rewrite Hempty'. simpl.
  unfold frontOverflowBuffer. rewrite shouldDelete_overflow_index, Hidx.
  done.
Qed.

End facts.

(** *** Concrete runs, on rings of integers *)

Lemma full_ring_inv : ring_inv full_ring.
Proof.
  apply (push_all_producer_inv [1; 2] (create 2)).
  apply producer_inv_create. lia.
Defined.

(** C2, at the first overflow: a ring of capacity 2 holds 1 and 2, and 3 is
    pushed.  The oldest entry 1 is overwritten, the overflow area is
    allocated with all of its 15 cells unwritten, and 1 is in neither
    place. *)
Theorem first_victim_is_lost :
  let rb' := (push 3 full_ring).2 in
  isFull full_ring = true
  /\ contents full_ring = [Some 1; Some 2]
  /\ read_cell (buffer full_ring) (readIndex full_ring) = Some 1
  /\ overflow_count full_ring = 0
  /\ contents rb' = [Some 2; Some 3]
  /\ overflowBuffer rb' = Some (replicate 15 None)
  /\ overflow_count rb' = 0
  /\ (Some 1 ∉ buffer rb')
  /\ (Some 1 ∉ default [] (overflowBuffer rb')).
Proof.
  vm_compute. repeat split; try done.
  - intros Hin. repeat (apply elem_of_cons in Hin as [Hin | Hin]; [done |]).
    by apply elem_of_nil in Hin.
  - intros Hin. repeat (apply elem_of_cons in Hin as [Hin | Hin]; [done |]).
    by apply elem_of_nil in Hin.
Qed.

(** C6, right after the overflow area has been initiated: on a ring of
    capacity 1, push 1, push 2 (the area is allocated, [overflow_index] is
    0), pop.  The main ring is empty, and [front] returns the address of
    [overflowBuffer[255]], outside the 15 cells of the array. *)
Theorem front_reads_outside_overflow_area :
  let rb := (pop (push_all [1; 2] (create 1))).2 in
  let r := front rb in
  empty rb = true
  /\ overflow_index rb = 0
  /\ overflowBuffer rb = Some (replicate 15 None)
  /\ r.1 = OverflowAt 255
  /\ ~ (0 <= 255 <= MAX_OVERFLOW_BUFFER_SIZE - 1)
  /\ deref r.2 r.1 = None
  /\ overflow_index r.2 = 255.
Proof. vm_compute. repeat split; try done. intros [_ H]. by apply H. Qed.

(** C1, the counting: on a ring of capacity 1, eighteen pushes discard one
    frame and nineteen pushes discard two, and both runs end in the same
    state; no member of the class tells them apart, so nothing counts the
    discarded frames. *)
Lemma discarded_frames_not_counted : ~ discarded_frames_counted.
Proof.
  intros [counter Hcount].
  pose proof (Hcount 1 (replicate 18 0) ltac:(lia)) as H18.
  pose proof (Hcount 1 (replicate 19 0) ltac:(lia)) as H19.
  assert (push_all (replicate 19 0) (create 1)
          = push_all (replicate 18 0) (create 1)) as Hsame
    by (vm_compute; reflexivity).
  assert (discarded (replicate 18 0) (create 1) = 1%nat) as Hd18
    by (vm_compute; reflexivity).
  assert (discarded (replicate 19 0) (create 1) = 2%nat) as Hd19
    by (vm_compute; reflexivity).
  congruence.
Qed.

Lemma push_all_bounded_witness :
  let rb := push_all (replicate 18 0) (create 1) in
  0 < 1
  /\ maxSize rb = 1 /\ size rb = 1 /\ overflow_count rb = 15
  /\ push_discards rb = true
  /\ overflowBuffer (push 7 rb).2 = overflowBuffer rb.
Proof.
  cbv zeta. split; [lia |].
  destruct (push_all_bounded 1 (replicate 18 0) ltac:(lia))
    as (Hmax & Hsize & Hcount & Hdrop).
  destruct (Hdrop 7 ltac:(vm_compute; reflexivity) ltac:(vm_compute; reflexivity))
    as (Hd & Hb & _).
  split; [exact Hmax |].
  split; [vm_compute; reflexivity |].
  split; [vm_compute; reflexivity |].
  split; [exact Hd | exact Hb].
Defined.

Lemma fifo_order_witness :
  let ops := [Push 1; Push 2; Front; Pop; Front; Push 3; Pop; Front; Pop; Pop; Front] in
  0 < 3
  /\ never_full ops (create 3)
  /\ map seen (run ops (create 3)).1 = (fifo_run ops []).1
  /\ (fifo_run ops []).1
     = [APushed true; APushed true; AFront (Some 1); APopped true;
        AFront (Some 2); APushed true; APopped true; AFront (Some 3);
        APopped true; APopped false; AFront None].
Proof.
  intros ops.
  assert (never_full ops (create 3)) as Hnever by (vm_compute; tauto).
  split; [lia |]. split; [exact Hnever |].
  split; [exact (fifo_order_while_never_full 3 ops ltac:(lia) Hnever) |].
  vm_compute; reflexivity.
Defined.

Lemma push_spec_witness :
  ring_inv full_ring
  /\ (push 3 full_ring).1 = false
  /\ size (push 3 full_ring).2 = 2
  /\ contents (push 3 full_ring).2 = [Some 2; Some 3].
Proof.
  split; [exact full_ring_inv |].
  destruct (push_spec 3 full_ring full_ring_inv) as (Hret & _ & Hsize & Hfull).
  destruct (Hfull ltac:(vm_compute; reflexivity)) as (_ & _ & _ & _ & _ & Hc).
  split; [| split; [exact Hsize | exact Hc]].
  destruct (push 3 full_ring).1 eqn:E; [| reflexivity].
  destruct Hret as [Hret _]. specialize (Hret eq_refl). vm_compute in Hret.
  discriminate.
Defined.

Lemma pop_spec_witness :
  ring_inv full_ring
  /\ (pop full_ring).1 = true
  /\ readIndex (pop full_ring).2 = 1
  /\ numElements (pop full_ring).2 = 1.
Proof.
  split; [exact full_ring_inv |].
  pose proof (pop_spec full_ring full_ring_inv) as H.
  change (empty full_ring) with false in H. cbv zeta in H.
  destruct H as (Hret & Hr & _ & Hn).
  split; [exact Hret | split; [exact Hr | exact Hn]].
Defined.

End RingBufferFacts.

(** ** The ring buffer: closed forms for runs *)

Module RingBufferRuns.
Import Mem MemFacts RingBuffer RingBufferFacts.

Section runs.
Context {Telement : Type}.
Abbreviation ring := (EnigmaIOTRingBuffer Telement).
Implicit Types (rb : ring) (item : Telement) (items : list Telement).

Lemma push_all_snoc items item rb :
  push_all (items ++ [item]) rb = (push item (push_all items rb)).2.
Proof. unfold push_all. by rewrite foldl_snoc. Qed.

Lemma tail_drop {A} (l : list A) (k : nat) : tail (drop k l) = drop (S k) l.
Proof.
  revert l. induction k as [| k IH]; intros [| x l]; simpl; done.
Qed.

(** After a run of pushes on a fresh ring: the element count, and the
    queue between the indices. *)
Lemma pushed_ring range items :
  0 < range ->
  let rb := push_all items (create range) in
  numElements rb = Z.min (Z.of_nat (length items)) range
  /\ contents rb = Some <$> drop (length items - Z.to_nat range) items.
Proof.
  intros Hr. induction items as [| item items IH] using rev_ind.
  { simpl. split; [lia | done]. }
  destruct IH as [IHn IHc]. rewrite push_all_snoc.
  set (rb := push_all items (create range)) in *.
  assert (ring_inv rb) as Hinv.
  { apply (push_all_producer_inv items (create range)).
    by apply producer_inv_create. }
  assert (maxSize rb = range) as Hmax by apply push_all_maxSize.
  destruct (push_fields item rb) as (_ & En & _).
  rewrite length_app. simpl length.
  destruct (isFull rb) eqn:Hfull.
  - pose proof Hfull as Hfull'. unfold isFull in Hfull'.
    apply bool_decide_eq_true in Hfull'.
    split; [lia |].
    rewrite contents_push_full, IHc by done.
    replace (length items + 1 - Z.to_nat range)%nat
      with (S (length items - Z.to_nat range)) by lia.
    rewrite drop_app_le by lia.
    rewrite fmap_app, <- tail_drop, fmap_tail. done.
  - pose proof Hfull as Hfull'. unfold isFull in Hfull'.
    apply bool_decide_eq_false in Hfull'.
    split; [lia |].
    rewrite contents_push, IHc by done.
    replace (length items - Z.to_nat range)%nat with 0%nat by lia.
    replace (length items + 1 - Z.to_nat range)%nat with 0%nat by lia.
    rewrite !drop_0, fmap_app. done.
Qed.

Lemma pushed_isFull range items :
  0 < range ->
  isFull (push_all items (create (Telement:=Telement) range))
  = bool_decide (range <= Z.of_nat (length items)).
Proof.
  intros Hr. destruct (pushed_ring range items Hr) as [Hn _].
  unfold isFull. rewrite Hn, push_all_maxSize. simpl.
  apply bool_decide_ext. lia.
Qed.

(** One push on a ring that has only been pushed to, seen from the
    overflow area. *)
Lemma push_overflow_step item rb :
  ring_inv rb -> deleteOverflow rb = false ->
  let rb' := (push item rb).2 in
  deleteOverflow rb' = false
  /\ if isFull rb then
       match overflow_branch_of rb with
       | OverflowInitiated =>
           overflow_index rb' = 0
           /\ overflowBuffer rb'
              = Some (replicate (Z.to_nat MAX_OVERFLOW_BUFFER_SIZE) None)
       | OverflowDiscarded =>
           overflow_index rb' = overflow_index rb
           /\ overflowBuffer rb' = overflowBuffer rb
       | OverflowStored =>
           overflow_index rb' = to_uint8 (overflow_index rb + 1)
           /\ overflowBuffer rb'
              = store_overflow (overflowBuffer rb) (overflow_index rb)
                               (read_cell (buffer rb) (readIndex rb))
       end
     else overflow_index rb' = overflow_index rb
          /\ overflowBuffer rb' = overflowBuffer rb.
Proof.
  intros Hinv Hdel rb'.
  destruct (push_overflow_fields item rb) as (Eb & Ei & Ed). fold rb' in Eb, Ei, Ed.
  rewrite Eb, Ei, Ed. unfold after_overflow.
  destruct (isFull rb) eqn:Hfull; simpl; [| done].
  rewrite (full_indices_meet rb Hinv Hfull), bool_decide_eq_true_2 by done.
  unfold pushInOverFlowBuffer, shouldDeleteOverflowBuffer. rewrite Hdel.
  destruct (overflow_branch_of rb); simpl; try done.
  by rewrite (full_indices_meet rb Hinv Hfull).
Qed.

Lemma overflow_index_after_range (m n : Z) :
  0 <= overflow_index_after m n <= MAX_OVERFLOW_BUFFER_SIZE + 1
  /\ (m < n -> 0 <= overflow_index_after m n <= MAX_OVERFLOW_BUFFER_SIZE).
Proof.
  unfold overflow_index_after, MAX_OVERFLOW_BUFFER_SIZE. case_decide; lia.
Qed.

(** After a run of pushes on a fresh ring: the overflow index, the pending
    deletion flag and the overflow array. *)
Lemma pushed_overflow range items :
  0 < range ->
  let rb := push_all items (create range) in
  overflow_index rb = overflow_index_after range (Z.of_nat (length items))
  /\ deleteOverflow rb = false
  /\ overflowBuffer rb = overflow_array_after range items.
Proof.
  intros Hr. induction items as [| item items IH] using rev_ind.
  { simpl. unfold overflow_index_after, overflow_array_after. simpl.
    rewrite !decide_True by lia. done. }
  destruct IH as (IHi & IHd & IHb). rewrite push_all_snoc.
  set (rb := push_all items (create range)) in *.
  assert (ring_inv rb) as Hinv.
  { apply (push_all_producer_inv items (create range)).
    by apply producer_inv_create. }
  destruct (pushed_ring range items Hr) as [Hnum Hcont]. fold rb in Hnum, Hcont.
  pose proof (pushed_isFull range items Hr) as Hfull. fold rb in Hfull.
  destruct (push_overflow_step item rb Hinv IHd) as [Hdel Hstep].
  split; [| split; [done |]]; revert Hstep; rewrite Hfull;
    unfold overflow_branch_of; rewrite IHi, IHb;
    unfold overflow_index_after, overflow_array_after, overflow_index_after;
    rewrite length_app; simpl length; unfold MAX_OVERFLOW_BUFFER_SIZE;
    set (n := length items) in *.
  - case_bool_decide; repeat case_decide; intros [-> _];
      rewrite ?to_uint8_small by lia; lia.
  - change (Z.to_nat 15) with 15%nat.
    case_bool_decide as Hge; repeat case_decide; intros [_ ->]; try lia; try done.
    + (* first overflow: the array is allocated, nothing is stored *)
      replace (Z.to_nat (Z.min (Z.of_nat (n + 1) - range - 1) 15)) with 0%nat by lia.
      done.
    + (* the overflow area is full *)
      replace (Z.to_nat (Z.min (Z.of_nat (n + 1) - range - 1) 15)) with 15%nat by lia.
      replace (Z.to_nat (Z.min (Z.of_nat n - range - 1) 15)) with 15%nat by lia.
      rewrite drop_app_le, take_app_le by (rewrite ?length_drop; lia). done.
    + (* a victim is stored in the next free slot *)
      set (k := Z.to_nat (Z.of_nat n - range - 1)).
      replace (Z.to_nat (Z.min (Z.of_nat (n + 1) - range - 1) 15)) with (S k) by lia.
      replace (Z.to_nat (Z.min (Z.of_nat n - range - 1) 15)) with k by lia.
      replace (Z.min (Z.of_nat n - range - 1) 15) with (Z.of_nat k) by lia.
      assert (exists y, items !! S k = Some y) as [y Hy].
      { apply lookup_lt_is_Some. lia. }
      assert (read_cell (buffer rb) (readIndex rb) = Some y) as ->.
      { pose proof (contents_head rb ltac:(lia)) as Hh.
        rewrite Hcont, head_lookup, list_lookup_fmap, lookup_drop in Hh.
        replace (n - Z.to_nat range + 0)%nat with (S k) in Hh by lia.
        rewrite Hy in Hh. simpl in Hh. by injection Hh as <-. }
      simpl store_overflow. f_equal. unfold store.
      rewrite decide_True, Nat2Z.id by lia.
      rewrite drop_app_le, take_app_le by (rewrite ?length_drop; lia).
      rewrite (take_S_r _ _ y) by (by rewrite lookup_drop).
      rewrite fmap_app, <- app_assoc. simpl.
      rewrite insert_app_r_alt by (rewrite length_fmap, length_take, length_drop; lia).
      rewrite length_fmap, length_take, length_drop.
      subst n.
      replace (k - k `min` (length items - 1))%nat with 0%nat by lia.
      replace (15 - k)%nat with (S (15 - S k)) by lia.
      replace (14 - k)%nat with (15 - S k)%nat by lia. done.
Qed.

Lemma discarded_snoc items item : forall rb,
  discarded (items ++ [item]) rb
  = (discarded items rb + (if push_discards (push_all items rb) then 1 else 0))%nat.
Proof.
  induction items as [| x items IH]; intros rb; simpl.
  - lia.
  - rewrite IH.
    change (push_all (x :: items) rb) with (push_all items (push x rb).2). lia.
Qed.

(** The discarding branch is taken exactly from the sixteenth push past
    the capacity on. *)
Lemma pushed_discards range items :
  0 < range ->
  push_discards (push_all items (create (Telement:=Telement) range))
  = bool_decide (range + 16 <= Z.of_nat (length items)).
Proof.
  intros Hr.
  destruct (pushed_overflow range items Hr) as (Hi & Hd & _).
  pose proof (pushed_isFull range items Hr) as Hfull.
  set (rb := push_all items (create range)) in *.
  assert (ring_inv rb) as Hinv.
  { apply (push_all_producer_inv items (create range)).
    by apply producer_inv_create. }
  unfold push_discards, shouldDeleteOverflowBuffer, overflow_branch_of.
  rewrite Hd, Hi, Hfull. unfold overflow_index_after, MAX_OVERFLOW_BUFFER_SIZE.
  case_bool_decide as Hge; simpl.
  - rewrite (full_indices_meet rb Hinv Hfull).
    rewrite bool_decide_eq_true_2 by done. simpl.
    repeat case_decide; repeat case_bool_decide; try done; lia.
  - symmetry. apply bool_decide_eq_false. lia.
Qed.

Lemma pushed_discarded range items :
  0 < range ->
  discarded items (create (Telement:=Telement) range)
  = Z.to_nat (Z.of_nat (length items) - range - 16).
Proof.
  intros Hr. induction items as [| item items IH] using rev_ind; [simpl; lia |].
  rewrite discarded_snoc, IH, pushed_discards, length_app by done. simpl length.
  case_bool_decide; lia.
Qed.

(** *** What a run of pushes leaves behind *)

(** After any run of pushes on a fresh ring of capacity [range], the ring
    holds the newest [range] items of the run (all of them while there are
    fewer), oldest first, and it is full exactly when at least [range]
    items were pushed. *)
Theorem ring_holds_newest_items range items :
  0 < range ->
  let rb := push_all items (create range) in
  size rb = Z.min (Z.of_nat (length items)) range
  /\ contents rb = Some <$> drop (length items - Z.to_nat range) items
  /\ isFull rb = bool_decide (range <= Z.of_nat (length items)).
Proof.
  intros Hr rb. destruct (pushed_ring range items Hr) as [Hn Hc].
  split; [done |]. split; [done |]. by apply pushed_isFull.
Qed.

(** After [n] pushes on a fresh ring of capacity [range], the overflow area
    holds [n - range - 1] frames (none below zero, 15 at most) and
    [n - range - 16] frames were discarded; together with the frames in the
    ring this accounts for every pushed frame but one, the victim of the
    first overflow. *)
Theorem pushes_accounted_for range items :
  0 < range ->
  let rb := push_all items (create range) in
  let n := Z.of_nat (length items) in
  overflow_count rb = Z.max 0 (Z.min (n - range - 1) MAX_OVERFLOW_BUFFER_SIZE)
  /\ Z.of_nat (discarded items (create range)) = Z.max 0 (n - range - 16)
  /\ n = size rb + overflow_count rb + Z.of_nat (discarded items (create range))
         + (if decide (range < n) then 1 else 0).
Proof.
  intros Hr rb n.
  destruct (pushed_ring range items Hr) as [Hn _].
  destruct (pushed_overflow range items Hr) as (Hi & _ & _).
  rewrite (pushed_discarded range items Hr). fold rb in Hn, Hi. fold n in Hn, Hi.
  unfold size, overflow_count, empty2. rewrite Hn, Hi.
  unfold overflow_index_after, MAX_OVERFLOW_BUFFER_SIZE.
  repeat case_decide; case_bool_decide; fold n; lia.
Qed.

(** After a run of pushes on a fresh ring of capacity [range], slot [j] of
    the overflow area holds the item of position [j + 1] of the run: the
    entries are the second to sixteenth items of the run, as far as they
    have been displaced, in arrival order. *)
Theorem overflow_holds_early_items range items :
  0 < range ->
  let rb := push_all items (create range) in
  overflow_entries rb
  = Some <$> take (Z.to_nat (Z.of_nat (length items) - range - 1))
                  (take 15 (drop 1 items)).
Proof.
  intros Hr rb.
  destruct (pushed_overflow range items Hr) as (Hi & _ & Hb).
  fold rb in Hi, Hb.
  unfold overflow_entries, overflow_count, empty2. rewrite Hb, Hi.
  unfold overflow_array_after, overflow_index_after, MAX_OVERFLOW_BUFFER_SIZE.
  set (n := length items). rewrite take_take.
  case_decide as Hle.
  - replace (Z.to_nat (Z.of_nat n - range - 1) `min` 15)%nat with 0%nat by lia.
    done.
  - rewrite bool_decide_eq_false_2 by lia.
    replace (Z.to_nat (Z.of_nat n - range - 1) `min` 15)%nat
      with (Z.to_nat (Z.min (Z.of_nat n - range - 1) 15)) by lia.
    apply take_app_length'.
    rewrite length_fmap, length_take, length_drop. fold n. lia.
Qed.

(** *** Every reachable state *)

Lemma shouldDelete_alloc rb :
  alloc_inv rb ->
  alloc_inv (shouldDeleteOverflowBuffer rb)
  /\ deleteOverflow (shouldDeleteOverflowBuffer rb) = false.
Proof.
  intros Hinv. unfold shouldDeleteOverflowBuffer.
  destruct (deleteOverflow rb) eqn:Hd; [| done].
  destruct Hinv as (Hrange & Hdel & Hlive).
  split; [| done]. unfold alloc_inv; simpl.
  split; [done |]. split; [done |].
  intros [Hne | ?]; [| done]. specialize (Hdel Hne). congruence.
Qed.

Lemma pushInOverFlowBuffer_alloc rb :
  alloc_inv rb -> alloc_inv (pushInOverFlowBuffer rb).
Proof.
  intros Hinv. destruct (shouldDelete_alloc rb Hinv) as [Hinv0 Hdel0].
  unfold pushInOverFlowBuffer.
  set (rb0 := shouldDeleteOverflowBuffer rb) in *.
  destruct Hinv0 as (Hrange & Hdel & Hlive).
  unfold overflow_branch_of. unfold alloc_inv, overflow_allocated in *.
  unfold MAX_OVERFLOW_BUFFER_SIZE in *.
  repeat case_decide; simpl.
  - split; [lia |]. split; [done |]. intros _. eexists. split; [done |].
    by rewrite ?length_replicate.
  - done.
  - destruct (Hlive ltac:(by left)) as (arr & Harr & Hlen).
    rewrite to_uint8_small by lia.
    split; [lia |]. split; [done |]. intros _. rewrite Harr. simpl.
    eexists. split; [done |]. by rewrite length_store.
Qed.

Lemma push_alloc item rb : alloc_inv rb -> alloc_inv (push item rb).2.
Proof.
  intros Hinv.
  assert (alloc_inv (after_overflow rb)) as Hafter.
  { unfold after_overflow. destruct (_ && _); [| done].
    by apply pushInOverFlowBuffer_alloc. }
  exact Hafter.
Qed.

Lemma pop_alloc rb : alloc_inv rb -> alloc_inv (pop rb).2.
Proof. intros Hinv. unfold pop. by destruct (empty rb). Qed.

Lemma front_alloc rb : alloc_inv rb -> alloc_inv (front rb).2.
Proof.
  intros Hinv. destruct (shouldDelete_alloc rb Hinv) as [Hinv0 Hdel0].
  unfold front. set (rb0 := shouldDeleteOverflowBuffer rb) in *.
  destruct (negb (empty rb0)); simpl; [done |].
  unfold frontOverflowBuffer. repeat case_decide; simpl.
  - by apply shouldDelete_alloc.
  - destruct Hinv0 as (Hrange & Hdel & Hlive).
    unfold alloc_inv, MAX_OVERFLOW_BUFFER_SIZE in *; simpl.
    split; [lia |]. split; [done |]. intros _. apply Hlive. by left.
  - destruct Hinv0 as (Hrange & Hdel & Hlive).
    unfold alloc_inv; simpl. split.
    { unfold to_uint8. apply Z.mod_pos_bound. lia. }
    split; [done |]. intros _. apply Hlive. by left.
Qed.

Lemma alloc_create range : alloc_inv (create (Telement:=Telement) range).
Proof.
  unfold alloc_inv, MAX_OVERFLOW_BUFFER_SIZE; simpl.
  unfold MAX_OVERFLOW_BUFFER_SIZE.
  split; [lia |]. split; [done |]. intros [? | ?]; done.
Qed.

Lemma run_alloc ops : forall rb, alloc_inv rb -> alloc_inv (run ops rb).2.
Proof.
  induction ops as [| o ops IH]; intros rb Hinv; [done |].
  simpl. apply IH.
  destruct o; simpl; [by apply push_alloc | by apply pop_alloc | by apply front_alloc].
Qed.

Lemma run_maxSize ops : forall rb, maxSize (run ops rb).2 = maxSize rb.
Proof.
  induction ops as [| o ops IH]; intros rb; [done |].
  cbn [run]. cbv zeta. cbn [snd]. rewrite IH.
  destruct o; cbn [step fst snd]; cbv zeta; cbn [snd].
  - by destruct (push_fields item rb) as (-> & _).
  - unfold pop. by destruct (empty rb).
  - by destruct (front_same_ring rb) as (-> & _).
Qed.

(** Whatever a client does with a ring, the overflow array is live
    whenever the overflow index is in use, and a deletion is pending only
    at the "none" mark and only for a live array: [pushInOverFlowBuffer]
    never copies through a dead pointer and [shouldDeleteOverflowBuffer]
    never deletes twice. *)
Theorem overflow_array_live_when_used range (ops : list (operation Telement)) :
  0 < range ->
  let rb := (run ops (create range)).2 in
  (overflow_index rb <> MAX_OVERFLOW_BUFFER_SIZE + 1 ->
     deleteOverflow rb = false /\ overflow_allocated rb)
  /\ (deleteOverflow rb = true ->
       overflow_index rb = MAX_OVERFLOW_BUFFER_SIZE + 1 /\ overflow_allocated rb).
Proof.
  intros _ rb.
  destruct (run_alloc ops _ (alloc_create range)) as (_ & Hdel & Hlive).
  fold rb in Hdel, Hlive. split.
  - intros Hne. split; [by apply Hdel | apply Hlive; by left].
  - intros Hd. split; [| apply Hlive; by right].
    destruct (decide (overflow_index rb = MAX_OVERFLOW_BUFFER_SIZE + 1)) as [| Hne];
      [done |].
    specialize (Hdel Hne). congruence.
Qed.

(** Whatever a client does with a ring of positive capacity, the capacity
    stays what the constructor was given and the ring stays well formed: in
    particular both indices stay inside the array, so that [push] copies
    into an allocated cell. *)
Theorem reachable_ring_well_formed range (ops : list (operation Telement)) :
  0 < range ->
  let rb := (run ops (create range)).2 in
  maxSize rb = range
  /\ ring_inv rb
  /\ is_Some (load (buffer rb) (writeIndex rb))
  /\ is_Some (load (buffer rb) (readIndex rb)).
Proof.
  intros Hr rb. pose proof (reachable_inv range ops Hr) as Hinv. fold rb in Hinv.
  split; [apply run_maxSize |]. split; [done |].
  destruct Hinv as [Hm Hl Hn Hrd Hw Hd].
  split; apply load_is_Some; lia.
Qed.

(** *** [front] and [pop] on the main ring *)

(** On a non-empty well-formed ring, [front] returns the address of the
    cell at the read index, which holds the oldest element; it consumes
    nothing, and asking again gives the same address. *)
Theorem front_shows_oldest rb :
  ring_inv rb -> empty rb = false ->
  (front rb).1 = BufferAt (readIndex rb)
  /\ deref (front rb).2 (front rb).1 = head (contents rb)
  /\ contents (front rb).2 = contents rb
  /\ overflow_index (front rb).2 = overflow_index rb
  /\ (front (front rb).2).1 = (front rb).1.
Proof.
  intros Hinv Hne.
  assert (forall rb', same_ring rb rb' -> empty rb' = false) as Hne'.
  { intros rb' (_ & En & _). unfold empty in *. by rewrite En. }
  assert (forall rb', same_ring rb rb' ->
            front rb' = (BufferAt (readIndex rb), shouldDeleteOverflowBuffer rb'))
    as Hfront.
  { intros rb' Hs. unfold front.
    assert (same_ring rb (shouldDeleteOverflowBuffer rb')) as Hs'.
    { pose proof (shouldDelete_same_ring rb') as Hs0.
      unfold same_ring in *. intuition congruence. }
    rewrite (Hne' _ Hs'). simpl. by destruct Hs' as (_ & _ & -> & _). }
  assert (same_ring rb rb) as Hrefl by (by unfold same_ring).
  pose proof (shouldDelete_same_ring rb) as Hs.
  rewrite (Hfront rb Hrefl). simpl.
  split; [done |]. split; [| split; [| split]].
  - destruct Hs as (_ & _ & _ & _ & ->).
    rewrite contents_head.
    + unfold read_cell. destruct Hinv as [Hm Hl Hn Hrd Hw Hd].
      by destruct (load_is_Some (buffer rb) (readIndex rb) ltac:(lia)) as [c ->].
    + destruct Hinv as [Hm Hl Hn Hrd Hw Hd].
      unfold empty in Hne. apply bool_decide_eq_false in Hne. lia.
  - unfold contents. by destruct Hs as (-> & -> & -> & _ & ->).
  - apply shouldDelete_overflow_index.
  - by rewrite (Hfront _ Hs).
Qed.

(** [pop] takes the oldest element off the queue and touches neither the
    cells of the ring nor the overflow area. *)
Theorem pop_removes_oldest rb :
  ring_inv rb ->
  contents (pop rb).2 = tail (contents rb)
  /\ buffer (pop rb).2 = buffer rb
  /\ overflowBuffer (pop rb).2 = overflowBuffer rb
  /\ overflow_index (pop rb).2 = overflow_index rb
  /\ deleteOverflow (pop rb).2 = deleteOverflow rb.
Proof.
  intros [Hm Hl Hn Hrd Hw Hd].
  destruct (empty rb) eqn:Hempty.
  - unfold pop. rewrite Hempty. simpl. split; [| done].
    unfold empty in Hempty. apply bool_decide_eq_true in Hempty.
    unfold contents. by rewrite Hempty.
  - destruct (contents_pop rb Hempty) as [Hpop Htail].
    split; [apply Htail; lia |]. by rewrite Hpop.
Qed.

Lemma run_app ops1 ops2 : forall rb,
  run (ops1 ++ ops2) rb
  = ((run ops1 rb).1 ++ (run ops2 (run ops1 rb).2).1, (run ops2 (run ops1 rb).2).2).
Proof.
  induction ops1 as [| o ops1 IH]; intros rb; simpl.
  - by destruct (run ops2 rb).
  - by rewrite IH.
Qed.

(** As many pops as the ring has elements all succeed and leave it empty,
    with the same capacity, buffer and overflow area. *)
Lemma pops_drain (n : nat) : forall rb,
  ring_inv rb -> numElements rb = Z.of_nat n ->
  let r := run (replicate n Pop) rb in
  r.1 = replicate n (Popped true)
  /\ ring_inv r.2 /\ numElements r.2 = 0
  /\ overflowBuffer r.2 = overflowBuffer rb
  /\ overflow_index r.2 = overflow_index rb
  /\ deleteOverflow r.2 = deleteOverflow rb.
Proof.
  induction n as [| n IH]; intros rb Hinv Hn; [done |].
  assert (empty rb = false) as Hne.
  { unfold empty. apply bool_decide_eq_false. lia. }
  destruct (contents_pop rb Hne) as [Hpop _].
  destruct (IH (pop rb).2 (pop_inv rb Hinv)) as (H1 & H2 & H3 & H4 & H5 & H6).
  { rewrite Hpop. simpl. lia. }
  cbn [replicate run step fst snd]. cbv zeta.
  rewrite H1. split; [by rewrite Hpop |].
  split; [done |]. split; [done |].
  rewrite H4, H5, H6, Hpop. done.
Qed.

(** After as many pops as the ring holds elements, every pop succeeded, the
    ring is empty and a further [pop] returns [false] and changes
    nothing. *)
Theorem pops_empty_the_ring rb :
  ring_inv rb ->
  let n := Z.to_nat (numElements rb) in
  let r := run (replicate n Pop) rb in
  r.1 = replicate n (Popped true)
  /\ empty r.2 = true
  /\ pop r.2 = (false, r.2).
Proof.
  intros Hinv n r.
  destruct (pops_drain n rb Hinv) as (H1 & _ & H3 & _).
  { destruct Hinv. lia. }
  fold r in H1, H3.
  assert (empty r.2 = true) as Hempty.
  { unfold empty. by apply bool_decide_eq_true. }
  split; [done |]. split; [done |].
  unfold pop. by rewrite Hempty.
Qed.

(** *** Reading the overflow area back *)

(** One [front] on a ring whose main part is empty and whose overflow area
    holds at least one frame. *)
Lemma front_overflow_step rb arr (k : nat) :
  empty rb = true -> deleteOverflow rb = false ->
  overflowBuffer rb = Some arr -> overflow_index rb = Z.of_nat (S k) ->
  (S k <= 15)%nat ->
  let r := front rb in
  r.1 = OverflowAt (Z.of_nat k)
  /\ deref r.2 r.1 = arr !! k
  /\ same_ring rb r.2
  /\ overflowBuffer r.2 = Some arr
  /\ overflow_index r.2
     = (if decide (k = 0%nat) then MAX_OVERFLOW_BUFFER_SIZE + 1 else Z.of_nat k)
  /\ deleteOverflow r.2 = bool_decide (k = 0%nat).
Proof.
  intros Hempty Hdel Harr Hidx Hk.
  unfold front, shouldDeleteOverflowBuffer. rewrite Hdel, Hempty. simpl.
  unfold frontOverflowBuffer, MAX_OVERFLOW_BUFFER_SIZE. rewrite Hidx.
  rewrite decide_False by lia.
  destruct k as [| k].
  - simpl. rewrite Harr. by unfold same_ring.
  - rewrite decide_False by lia.
    replace (Z.of_nat (S (S k)) - 1) with (Z.of_nat (S k)) by lia.
    rewrite to_uint8_small by lia. cbn [fst snd deref overflowBuffer].
    rewrite Harr. simpl mbind. unfold load.
    rewrite decide_True, Nat2Z.id by lia.
    rewrite decide_False, bool_decide_eq_false_2 by lia.
    by unfold same_ring.
Qed.

(** [k] successive calls of [front] on such a ring walk the overflow area
    from slot [k - 1] down to slot 0. *)
Lemma fronts_drain (k : nat) : forall rb arr,
  (1 <= k <= 15)%nat ->
  empty rb = true -> deleteOverflow rb = false ->
  overflowBuffer rb = Some arr -> overflow_index rb = Z.of_nat k ->
  let r := run (replicate k Front) rb in
  r.1 = (fun i => FrontIs (OverflowAt (Z.of_nat i)) (arr !! i)) <$> reverse (seq 0 k)
  /\ same_ring rb r.2
  /\ overflowBuffer r.2 = Some arr
  /\ overflow_index r.2 = MAX_OVERFLOW_BUFFER_SIZE + 1
  /\ deleteOverflow r.2 = true.
Proof.
  induction k as [| k IH]; intros rb arr Hk Hempty Hdel Harr Hidx; [lia |].
  destruct (front_overflow_step rb arr k Hempty Hdel Harr Hidx ltac:(lia))
    as (Hp & Hc & Hs & Hb & Hi & Hd).
  rewrite seq_S, reverse_snoc, fmap_cons.
  cbn [replicate run step fst snd]. cbv zeta. cbn [fst snd]. rewrite Hc, Hp. simpl plus.
  destruct k as [| k].
  - rewrite decide_True in Hi by done. rewrite bool_decide_eq_true_2 in Hd by done.
    done.
  - rewrite decide_False in Hi by done. rewrite bool_decide_eq_false_2 in Hd by done.
    destruct (IH (front rb).2 arr ltac:(lia)) as (H1 & H2 & H3 & H4 & H5); try done.
    { unfold empty in *. by destruct Hs as (_ & -> & _). }
    rewrite H1. split; [done |]. split; [| done].
    unfold same_ring in *. intuition congruence.
Qed.

(** With the main ring empty and [k] frames in the overflow area, [k]
    calls of [front] return the frames newest first, slot [k - 1] down to
    slot 0, each call consuming one; afterwards the area is marked unused
    and its array awaits deletion. *)
Theorem overflow_drains_newest_first rb arr (k : nat) :
  (1 <= k <= 15)%nat ->
  empty rb = true -> deleteOverflow rb = false ->
  overflowBuffer rb = Some arr -> overflow_index rb = Z.of_nat k ->
  let r := run (replicate k Front) rb in
  r.1 = (fun i => FrontIs (OverflowAt (Z.of_nat i)) (arr !! i)) <$> reverse (seq 0 k)
  /\ overflow_index r.2 = MAX_OVERFLOW_BUFFER_SIZE + 1
  /\ deleteOverflow r.2 = true.
Proof.
  intros Hk Hempty Hdel Harr Hidx r.
  destruct (fronts_drain k rb arr Hk Hempty Hdel Harr Hidx) as (H1 & _ & _ & H4 & H5).
  done.
Qed.

(** The address [front] returns for the last frame of the overflow area is
    good only until the next call of [front]: that call deletes the array
    and returns [NULL], and the address no longer points into a live
    array. *)
Theorem last_overflow_pointer_dangles rb arr :
  empty rb = true -> deleteOverflow rb = false ->
  overflowBuffer rb = Some arr -> overflow_index rb = 1 ->
  let r1 := front rb in
  let r2 := front r1.2 in
  r1.1 = OverflowAt 0
  /\ deref r1.2 r1.1 = arr !! 0%nat
  /\ r2.1 = NULL
  /\ overflowBuffer r2.2 = None
  /\ deref r2.2 r1.1 = None.
Proof.
  intros Hempty Hdel Harr Hidx r1 r2.
  destruct (front_overflow_step rb arr 0 Hempty Hdel Harr Hidx ltac:(lia))
    as (Hp & Hc & Hs & Hb & Hi & Hd).
  fold r1 in Hp, Hc, Hs, Hb, Hi, Hd.
  rewrite decide_True in Hi by done. rewrite bool_decide_eq_true_2 in Hd by done.
  split; [done |]. split; [done |].
  assert (r2 = (NULL, shouldDeleteOverflowBuffer (shouldDeleteOverflowBuffer r1.2)))
    as ->.
  { unfold r2, front.
    assert (empty (shouldDeleteOverflowBuffer r1.2) = true) as ->.
    { unfold empty in *.
      destruct (shouldDelete_same_ring r1.2) as (_ & -> & _).
      by destruct Hs as (_ & -> & _). }
    simpl. unfold frontOverflowBuffer.
    by rewrite shouldDelete_overflow_index, Hi, decide_True. }
  rewrite Hp. unfold shouldDeleteOverflowBuffer. rewrite Hd. simpl. done.
Qed.

Lemma lookups_take {A} (l : list A) (k : nat) :
  (k <= length l)%nat -> (fun i => l !! i) <$> seq 0 k = Some <$> take k l.
Proof.
  induction k as [| k IH]; intros Hk; [done |].
  destruct (lookup_lt_is_Some_2 l k ltac:(lia)) as [x Hx].
  rewrite seq_S, fmap_app, IH, (take_S_r _ _ x), fmap_app by (done || lia).
  simpl. by rewrite Hx.
Qed.

(** A run of more than [range + 1] pushes on a fresh ring, then the ring
    drained by [range] pops, then [front] called once per parked frame: the
    pops all succeed, and [front] then serves the displaced frames newest
    first, the reverse of their arrival order. *)
Theorem displaced_frames_return_newest_first range items :
  0 < range -> range + 1 < Z.of_nat (length items) ->
  let rb := push_all items (create range) in
  let k := Z.to_nat (Z.min (Z.of_nat (length items) - range - 1) 15) in
  let r := run (replicate (Z.to_nat range) Pop ++ replicate k Front) rb in
  seen <$> r.1
  = replicate (Z.to_nat range) (APopped true)
    ++ (AFront ∘ Some <$> reverse (take k (drop 1 items))).
Proof.
  intros Hr Hn rb k r.
  destruct (pushed_ring range items Hr) as [Hnum _].
  destruct (pushed_overflow range items Hr) as (Hi & Hd & Hb).
  fold rb in Hnum, Hi, Hd, Hb.
  assert (ring_inv rb) as Hinv.
  { apply (push_all_producer_inv items (create range)).
    by apply producer_inv_create. }
  destruct (pops_drain (Z.to_nat range) rb Hinv ltac:(lia))
    as (P1 & P2 & P3 & P4 & P5 & P6).
  unfold overflow_index_after, MAX_OVERFLOW_BUFFER_SIZE in Hi.
  rewrite decide_False in Hi by lia.
  unfold overflow_array_after, overflow_index_after, MAX_OVERFLOW_BUFFER_SIZE in Hb.
  rewrite decide_False in Hb by lia. cbv zeta in Hb. rewrite decide_False in Hb by lia.
  fold k in Hb.
  set (arr := (Some <$> take k (drop 1 items)) ++ replicate (Z.to_nat 15 - k) None) in *.
  destruct (fronts_drain k (run (replicate (Z.to_nat range) Pop) rb).2 arr)
    as (F1 & _); try done.
  { lia. }
  { unfold empty. by apply bool_decide_eq_true. }
  { by rewrite P6. }
  { by rewrite P4. }
  { rewrite P5, Hi. lia. }
  unfold r. rewrite run_app. cbn [fst]. rewrite fmap_app, P1, F1.
  rewrite fmap_replicate. cbn [seen]. f_equal.
  rewrite <- list_fmap_compose, !fmap_reverse. f_equal.
  change (seen ∘ (fun i => FrontIs (OverflowAt (Z.of_nat i)) (arr !! i)))
    with ((fun c => AFront (mjoin c)) ∘ (fun i => arr !! i)).
  rewrite list_fmap_compose, lookups_take.
  2:{ unfold arr. rewrite length_app, length_fmap, length_take, length_drop. lia. }
  unfold arr. rewrite take_app_length'.
  2:{ rewrite length_fmap, length_take, length_drop. lia. }
  rewrite <- !list_fmap_compose. done.
Qed.

(** As long as no [push] finds the ring full, the ring answers like a
    first-in first-out queue, also on runs that fill it to the brim. *)
Theorem fifo_order_without_overwrite range (ops : list (operation Telement)) :
  0 < range ->
  no_overwrite ops (create range) ->
  seen <$> (run ops (create range)).1 = (fifo_run ops []).1.
Proof.
  intros Hr Hno.
  rewrite <- (run_refines_fifo ops (create range) [] (represents_create range Hr) Hno).
  clear. induction (run ops (create range)).1 as [| ob l IH]; [done |].
  simpl. by f_equal.
Qed.

End runs.

(** *** Instances on rings of integers *)

Lemma ring_holds_newest_items_witness :
  0 < 2
  /\ size (push_all [1; 2; 3] (create 2)) = 2
  /\ contents (push_all [1; 2; 3] (create 2)) = [Some 2; Some 3].
Proof.
  split; [lia |].
  destruct (ring_holds_newest_items 2 [1; 2; 3] ltac:(lia)) as (Hs & Hc & _).
  split; [exact Hs | exact Hc].
Defined.

Lemma pushes_accounted_for_witness :
  0 < 2
  /\ overflow_count overflowed_ring = 2
  /\ Z.of_nat (discarded [1; 2; 3; 4; 5] (create 2)) = 0
  /\ 5 = size overflowed_ring + overflow_count overflowed_ring
          + Z.of_nat (discarded [1; 2; 3; 4; 5] (create 2)) + 1.
Proof.
  split; [lia |].
  destruct (pushes_accounted_for 2 [1; 2; 3; 4; 5] ltac:(lia)) as (Ho & Hd & Hsum).
  split; [exact Ho |]. split; [exact Hd | exact Hsum].
Defined.

Lemma overflow_holds_early_items_witness :
  0 < 2 /\ overflow_entries overflowed_ring = [Some 2; Some 3].
Proof.
  split; [lia |].
  exact (overflow_holds_early_items 2 [1; 2; 3; 4; 5] ltac:(lia)).
Defined.

Lemma reachable_ring_well_formed_witness :
  let ops := [Push 1; Push 2; Push 3; Front; Pop; Pop; Front; Pop; Push 4] in
  0 < 2
  /\ maxSize (run ops (create 2)).2 = 2
  /\ ring_inv (run ops (create 2)).2.
Proof.
  intros ops. split; [lia |].
  destruct (reachable_ring_well_formed 2 ops ltac:(lia)) as (Hm & Hinv & _).
  split; [exact Hm | exact Hinv].
Defined.

Lemma overflow_array_live_when_used_witness :
  let ops := [Push 1; Push 2; Push 3; Pop; Front; Front; Push 4; Push 5] in
  0 < 1
  /\ overflow_index (run ops (create 1)).2 = 0
  /\ deleteOverflow (run ops (create 1)).2 = false
  /\ overflow_allocated (run ops (create 1)).2.
Proof.
  intros ops.
  assert (overflow_index (run ops (create 1)).2 = 0) as Hi by (vm_compute; reflexivity).
  split; [lia |]. split; [exact Hi |].
  destruct (overflow_array_live_when_used 1 ops ltac:(lia)) as [Hlive _].
  apply Hlive. rewrite Hi. discriminate.
Defined.

Lemma front_shows_oldest_witness :
  ring_inv full_ring
  /\ empty full_ring = false
  /\ (front full_ring).1 = BufferAt 0
  /\ deref (front full_ring).2 (front full_ring).1 = Some (Some 1).
Proof.
  split; [exact full_ring_inv |]. split; [vm_compute; reflexivity |].
  destruct (front_shows_oldest full_ring full_ring_inv ltac:(vm_compute; reflexivity))
    as (Hp & Hd & _).
  split; [exact Hp | exact Hd].
Defined.

Lemma pop_removes_oldest_witness :
  ring_inv full_ring /\ contents (pop full_ring).2 = [Some 2].
Proof.
  split; [exact full_ring_inv |].
  destruct (pop_removes_oldest full_ring full_ring_inv) as (Hc & _).
  exact Hc.
Defined.

Lemma pops_empty_the_ring_witness :
  ring_inv full_ring
  /\ (run [Pop; Pop] full_ring).1 = [Popped true; Popped true]
  /\ empty (run [Pop; Pop] full_ring).2 = true.
Proof.
  split; [exact full_ring_inv |].
  destruct (pops_empty_the_ring full_ring full_ring_inv) as (Hr & He & _).
  split; [exact Hr | exact He].
Defined.

Lemma overflow_drains_newest_first_witness :
  let arr := [Some 2; Some 3] ++ replicate 13 None in
  (1 <= 2 <= 15)%nat
  /\ empty drained_ring = true
  /\ deleteOverflow drained_ring = false
  /\ overflowBuffer drained_ring = Some arr
  /\ overflow_index drained_ring = 2
  /\ (run [Front; Front] drained_ring).1
     = [FrontIs (OverflowAt 1) (Some (Some 3)); FrontIs (OverflowAt 0) (Some (Some 2))].
Proof.
  intros arr.
  assert (1 <= 2 <= 15)%nat as Hk by lia.
  assert (empty drained_ring = true) as He by (vm_compute; reflexivity).
  assert (deleteOverflow drained_ring = false) as Hd by (vm_compute; reflexivity).
  assert (overflowBuffer drained_ring = Some arr) as Ha by (vm_compute; reflexivity).
  assert (overflow_index drained_ring = 2) as Hi by (vm_compute; reflexivity).
  repeat (split; [assumption |]).
  destruct (overflow_drains_newest_first drained_ring arr 2 Hk He Hd Ha Hi)
    as (Hr & _).
  exact Hr.
Defined.

Lemma last_overflow_pointer_dangles_witness :
  let arr := Some 2 :: replicate 14 None in
  empty last_frame_ring = true
  /\ deleteOverflow last_frame_ring = false
  /\ overflowBuffer last_frame_ring = Some arr
  /\ overflow_index last_frame_ring = 1
  /\ deref (front last_frame_ring).2 (front last_frame_ring).1 = Some (Some 2)
  /\ deref (front (front last_frame_ring).2).2 (front last_frame_ring).1 = None.
Proof.
  intros arr.
  assert (empty last_frame_ring = true) as He by (vm_compute; reflexivity).
  assert (deleteOverflow last_frame_ring = false) as Hd by (vm_compute; reflexivity).
  assert (overflowBuffer last_frame_ring = Some arr) as Ha by (vm_compute; reflexivity).
  assert (overflow_index last_frame_ring = 1) as Hi by (vm_compute; reflexivity).
  repeat (split; [assumption |]).
  destruct (last_overflow_pointer_dangles last_frame_ring arr He Hd Ha Hi)
    as (_ & Hc & _ & _ & Hdangle).
  split; [exact Hc | exact Hdangle].
Defined.

Lemma displaced_frames_return_newest_first_witness :
  0 < 1
  /\ 1 + 1 < Z.of_nat (length [1; 2; 3; 4])
  /\ seen <$> (run [Pop; Front; Front] (push_all [1; 2; 3; 4] (create 1))).1
     = [APopped true; AFront (Some 3); AFront (Some 2)].
Proof.
  split; [lia |]. split; [simpl; lia |].
  exact (displaced_frames_return_newest_first 1 [1; 2; 3; 4]
           ltac:(lia) ltac:(simpl; lia)).
Defined.

Lemma fifo_order_without_overwrite_witness :
  let ops := [Push 1; Push 2; Front; Pop; Push 3; Front; Pop; Front; Pop; Front] in
  0 < 2
  /\ no_overwrite ops (create 2)
  /\ isFull (run [Push 1; Push 2] (create 2)).2 = true
  /\ seen <$> (run ops (create 2)).1
     = [APushed true; APushed true; AFront (Some 1); APopped true;
        APushed true; AFront (Some 2); APopped true; AFront (Some 3);
        APopped true; AFront None].
Proof.
  intros ops.
  assert (no_overwrite ops (create 2)) as Hno by (vm_compute; tauto).
  split; [lia |]. split; [exact Hno |]. split; [vm_compute; reflexivity |].
  exact (fifo_order_without_overwrite 2 ops ltac:(lia) Hno).
Defined.

Lemma first_overflow_stores_nothing_witness :
  ring_inv full_ring
  /\ isFull full_ring = true
  /\ overflow_index full_ring = MAX_OVERFLOW_BUFFER_SIZE + 1
  /\ overflowBuffer (push 3 full_ring).2 = Some (replicate 15 None)
  /\ overflow_index (push 3 full_ring).2 = 0.
Proof.
  assert (isFull full_ring = true) as Hf by (vm_compute; reflexivity).
  assert (overflow_index full_ring = MAX_OVERFLOW_BUFFER_SIZE + 1) as Hi
    by (vm_compute; reflexivity).
  split; [exact full_ring_inv |]. split; [exact Hf |]. split; [exact Hi |].
  exact (first_overflow_stores_nothing 3 full_ring full_ring_inv Hf Hi).
Defined.

Lemma overflowed_ring_inv : ring_inv overflowed_ring.
Proof.
  apply (push_all_producer_inv [1; 2; 3; 4; 5] (create 2)).
  apply producer_inv_create. lia.
Defined.

Lemma later_overflow_stores_victim_witness :
  let arr := [Some 2; Some 3] ++ replicate 13 None in
  ring_inv overflowed_ring
  /\ isFull overflowed_ring = true
  /\ deleteOverflow overflowed_ring = false
  /\ overflowBuffer overflowed_ring = Some arr
  /\ 0 <= overflow_index overflowed_ring <= MAX_OVERFLOW_BUFFER_SIZE - 1
  /\ contents overflowed_ring = [Some 4; Some 5]
  /\ overflowBuffer (push 6 overflowed_ring).2
     = Some ([Some 2; Some 3; Some 4] ++ replicate 12 None).
Proof.
  intros arr.
  assert (isFull overflowed_ring = true) as Hf by (vm_compute; reflexivity).
  assert (deleteOverflow overflowed_ring = false) as Hd by (vm_compute; reflexivity).
  assert (overflowBuffer overflowed_ring = Some arr) as Ha by (vm_compute; reflexivity).
  assert (0 <= overflow_index overflowed_ring <= MAX_OVERFLOW_BUFFER_SIZE - 1) as Hi
    by (vm_compute; split; discriminate).
  split; [exact overflowed_ring_inv |].
  repeat (split; [assumption |]).
  split; [vm_compute; reflexivity |].
  destruct (later_overflow_stores_victim 6 overflowed_ring arr
              overflowed_ring_inv Hf Hd Ha Hi) as (Hb & _).
  exact Hb.
Defined.

Lemma front_overflow_in_bounds_witness :
  empty drained_ring = true
  /\ 1 <= overflow_index drained_ring <= MAX_OVERFLOW_BUFFER_SIZE + 1
  /\ ((front drained_ring).1 = NULL
      \/ exists i, (front drained_ring).1 = OverflowAt i
                   /\ 0 <= i <= MAX_OVERFLOW_BUFFER_SIZE - 1).
Proof.
  assert (empty drained_ring = true) as He by (vm_compute; reflexivity).
  assert (1 <= overflow_index drained_ring <= MAX_OVERFLOW_BUFFER_SIZE + 1) as Hi
    by (vm_compute; split; discriminate).
  split; [exact He |]. split; [exact Hi |].
  exact (front_overflow_in_bounds drained_ring He Hi).
Defined.

Lemma front_overflow_index_zero_witness :
  let rb := (pop (push_all [1; 2] (create 1))).2 in
  empty rb = true
  /\ overflow_index rb = 0
  /\ (front rb).1 = OverflowAt 255
  /\ overflow_index (front rb).2 = 255.
Proof.
  intros rb.
  assert (empty rb = true) as He by (vm_compute; reflexivity).
  assert (overflow_index rb = 0) as Hi by (vm_compute; reflexivity).
  split; [exact He |]. split; [exact Hi |].
  exact (front_overflow_index_zero rb He Hi).
Defined.

End RingBufferRuns.

(** ** Message codes *)

Module MessageTypeFacts.
Import MessageType.

Lemma table_covers_enumerators : table_rows_declared.
Proof.
  unfold table_rows_declared, spec_wire_format_table.
  repeat (apply Forall_cons; split;
          [unfold enumerators; repeat first [apply list_elem_of_here | apply list_elem_of_further] |]).
  apply Forall_nil. done.
Qed.

(** C5: each constant of [gatewayMessageType_t] equals the tag the
    wire-format table lists for it; [HA_DISCOVERY_MESSAGE] and
    [BROADCAST_KEY_REQUEST] are both 0x08, so nothing computed from the tag
    alone tells the two message types apart. *)
Theorem message_tags_as_listed :
  enumerators_as_listed
  /\ HA_DISCOVERY_MESSAGE = 0x08
  /\ BROADCAST_KEY_REQUEST = 0x08
  /\ HA_DISCOVERY_MESSAGE = BROADCAST_KEY_REQUEST
  /\ (forall (A : Type) (classify : gatewayMessageType_t -> A),
        classify HA_DISCOVERY_MESSAGE = classify BROADCAST_KEY_REQUEST).
Proof.
  split; [| done].
  unfold enumerators_as_listed, enumerators.
  repeat (apply Forall_cons; split; [vm_compute; reflexivity |]).
  apply Forall_nil. done.
Qed.

(** These two are the only enumerators that share a value. *)
Lemma only_shared_tag (n1 n2 : string) (v : gatewayMessageType_t) :
  (n1, v) ∈ enumerators -> (n2, v) ∈ enumerators -> n1 <> n2 ->
  v = 0x08.
Proof.
  unfold enumerators. intros H1 H2 Hne.
  repeat (apply elem_of_cons in H1 as [H1 | H1];
          [injection H1 as -> -> |]); try by apply elem_of_nil in H1.
  all: repeat (apply elem_of_cons in H2 as [H2 | H2];
               [try discriminate H2; try (injection H2 as ->; done) |]);
       try by apply elem_of_nil in H2.
  all: done.
Qed.

End MessageTypeFacts.

(** ** The counter window *)

Module CounterFacts.
Import Counter.

Lemma lostMessages_delta (received last_accepted : Z) :
  0 < counter_delta received last_accepted ->
  lostMessages received last_accepted = counter_delta received last_accepted - 1.
Proof.
  unfold lostMessages, counter_delta, to_uint16. intros Hpos.
  pose proof (Z.mod_pos_bound (received - last_accepted) (2 ^ 16) ltac:(lia)) as Hb.
  rewrite <- Zminus_mod_idemp_l. apply Z.mod_small. lia.
Qed.

(** C3: a frame with counter [received] is accepted against
    [last_accepted] exactly when [(received - last_accepted) mod 2^16] lies
    in the interval (0, W]; an accepted frame reports
    [lost = (received - last_accepted - 1) mod 2^16], which is the distance
    minus one. *)
Theorem counter_window (W received last_accepted : Z) :
  let delta := (received - last_accepted) mod 2 ^ 16 in
  match checkCounter W received last_accepted with
  | Some lost =>
      0 < delta <= W
      /\ lost = (received - last_accepted - 1) mod 2 ^ 16
      /\ lost = delta - 1
  | None => ~ (0 < delta <= W)
  end.
Proof.
  intros delta. unfold checkCounter.
  change (counter_delta received last_accepted) with delta.
  repeat case_bool_decide; simpl; try lia.
  split; [lia |]. split; [done |].
  by apply lostMessages_delta.
Qed.

(** A repeated counter is rejected, whatever the window. *)
Lemma replay_rejected (W c : Z) : checkCounter W c c = None.
Proof.
  unfold checkCounter, counter_delta, to_uint16.
  rewrite Z.sub_diag, Z.mod_0_l by lia. done.
Qed.

(** Scenario 3 of the specification: after counter 1, counter 5 is accepted
    with three messages lost, and counter 3 is then rejected. *)
Example out_of_order_within_window :
  receiveCounter DEFAULT_WINDOW 5 1 = (Some 3, 5)
  /\ receiveCounter DEFAULT_WINDOW 3 5 = (None, 5).
Proof. split; vm_compute; reflexivity. Qed.

(** The window carries across the wrap of the 16-bit counter. *)
Example accepted_across_wrap :
  receiveCounter DEFAULT_WINDOW 2 65534 = (Some 3, 2).
Proof. vm_compute; reflexivity. Qed.

End CounterFacts.

(** ** The JSON controller *)

Module JsonControllerFacts.
Import JsonController.

Section sending.
Context {World Call DynamicJsonDocument : Type}.
Context (measureMsgPack : DynamicJsonDocument -> Z).
Context (serializeMsgPack : DynamicJsonDocument -> Z -> list Z).

Abbreviation controller := (EnigmaIOTjsonController World Call).
Abbreviation send := (sendJson (World:=World) (Call:=Call) measureMsgPack serializeMsgPack).

(** C8: [sendJson] returns [false] exactly when no callback is registered
    or the registered callback returns [false]; with a callback registered,
    the whole effect of [sendJson] is that of one invocation of it (there is
    no second attempt), and with none the world is untouched. *)
Theorem sendJson_surfaces_failure (json : DynamicJsonDocument)
    (ctl : controller) (w : World) :
  ((send json ctl w).1 = false
   <-> sendData ctl = None
       \/ exists cb, sendData ctl = Some cb /\ (invoke_once measureMsgPack serializeMsgPack cb json w).1 = false)
  /\ match sendData ctl with
     | Some cb => send json ctl w = invoke_once measureMsgPack serializeMsgPack cb json w
     | None => send json ctl w = (false, w)
     end.
Proof.
  unfold sendJson, invoke_once, payload.
  destruct (sendData ctl) as [cb |]; simpl.
  - split; [| done]. split.
    + intros Hf. right. by exists cb.
    + intros [Hnone | (cb' & Hcb & Hf)]; [done |]. by injection Hcb as ->.
  - split; [| done]. split; [by left | done].
Qed.

End sending.

(** However the callback answers, [sendJson] invokes it once. *)
Lemma sendJson_invokes_once {World Call Doc : Type}
    (measure : Doc -> Z) (serialize : Doc -> Z -> list Z)
    (cb : sendData_cb World) (json : Doc)
    (ctl : EnigmaIOTjsonController (nat * World) Call) (n : nat) (w : World) :
  sendData ctl = Some (counting cb) ->
  (sendJson measure serialize json ctl (n, w)).2.1 = S n.
Proof. intros Hcb. unfold sendJson. rewrite Hcb. done. Qed.

Section discovery.
Context {World Call : Type}.
Variable c : config.

Abbreviation controller' := (EnigmaIOTjsonController World Call).
Implicit Types (ctl : controller') (sleepy : bool).

(** A discovery call is executed only when sending is switched on and the
    guard's clock reading is more than [sendHAdelay] past [sendHAtime]. *)
Lemma executed_after_delay millis1 millis2 sleepy ctl f :
  (callHAdiscoveryCalls c millis1 millis2 sleepy ctl).1 = Some f ->
  doSendHAdiscovery ctl = true
  /\ elapsed millis1 ctl > sendHAdelay ctl
  /\ head (haCallQueue ctl) = Some (Some f).
Proof.
  unfold callHAdiscoveryCalls, elapsed.
  destruct (doSendHAdiscovery ctl); simpl; [| done].
  case_bool_decide as Hgt; [| done].
  destruct (haCallQueue ctl) as [| [g |] q]; simpl; try done.
  intros [= ->]. done.
Qed.

(** For a sleepy peer, or while [sendHAdelay] still has its initial value
    (as on a freshly constructed controller), the first call after
    [connectInform] waits for the first-item delay. *)
Lemma first_call_waits ctl sleepy t0 millis1 millis2 sleepy' f :
  sleepy = true \/ sendHAdelay ctl = HA_FIRST_DISCOVERY_DELAY c ->
  (callHAdiscoveryCalls c millis1 millis2 sleepy' (connectInform c sleepy t0 ctl)).1
  = Some f ->
  to_uint32 (millis1 - t0) > first_item_delay c sleepy.
Proof.
  intros Hfirst Hexec. apply executed_after_delay in Hexec as (_ & Hgt & _).
  revert Hgt. unfold elapsed, first_item_delay. simpl.
  destruct Hfirst as [-> | Hinit]; [done |]. rewrite Hinit. by destruct sleepy.
Qed.

Lemma fresh_delay time0 :
  sendHAdelay (fresh (World:=World) (Call:=Call) c time0) = HA_FIRST_DISCOVERY_DELAY c.
Proof. done. Qed.

Lemma addHACall_delay f ctl : sendHAdelay (addHACall f ctl) = sendHAdelay ctl.
Proof. done. Qed.

(** After an executed call, the next one waits for the next-item delay,
    counted from the clock reading taken after the executed call. *)
Lemma next_call_waits ctl millis1 millis2 sleepy f millis1' millis2' sleepy' g :
  (callHAdiscoveryCalls c millis1 millis2 sleepy ctl).1 = Some f ->
  (callHAdiscoveryCalls c millis1' millis2' sleepy'
     (callHAdiscoveryCalls c millis1 millis2 sleepy ctl).2).1 = Some g ->
  to_uint32 (millis1' - millis2) > next_item_delay c sleepy.
Proof.
  intros Hfirst Hnext.
  apply executed_after_delay in Hnext as (_ & Hgt & _). revert Hgt.
  apply executed_after_delay in Hfirst as (Hdo & Hgt & Hq).
  unfold callHAdiscoveryCalls, elapsed in *. rewrite Hdo. simpl.
  rewrite bool_decide_eq_true_2 by done.
  unfold next_item_delay.
  destruct (haCallQueue ctl) as [| [h |] q]; destruct sleepy; simpl in *; done.
Qed.

(** With the sleepy constants as the specification gives them, the sleepy
    delays are twice the ordinary ones. *)
Lemma sleepy_doubles :
  sleepy_delays_doubled c ->
  first_item_delay c true = 2 * first_item_delay c false
  /\ next_item_delay c true = 2 * next_item_delay c false.
Proof. intros [H1 H2]. done. Qed.

(** [connectInform] for a peer that is not sleepy leaves [sendHAdelay] as
    the last executed call set it. *)
Lemma connectInform_keeps_delay t0 ctl :
  sendHAdelay (connectInform c false t0 ctl) = sendHAdelay ctl.
Proof. done. Qed.

End discovery.

(** C7, on a second [connectInform]: two calls are queued on a fresh
    controller; the node registers at time 0, the first call runs at 5001,
    the node registers again at 6000 (peer not sleepy).  The first call
    executed after that [connectInform] runs at 6501, when 501 ms have
    elapsed, not the first-item delay of 5000 ms: the delay in force is the
    next-item delay left by the previous call. *)
Theorem reconnect_keeps_next_item_delay :
  let c := sample_config in
  let ctl0 : EnigmaIOTjsonController unit string :=
    addHACall (Some "b") (addHACall (Some "a") (fresh c 0)) in
  let ctl1 := connectInform c false 0 ctl0 in
  let r1 := callHAdiscoveryCalls c 5001 5001 false ctl1 in
  let ctl2 := connectInform c false 6000 r1.2 in
  let r2 := callHAdiscoveryCalls c 6501 6501 false ctl2 in
  sleepy_delays_doubled c
  /\ config_in_range c
  /\ (callHAdiscoveryCalls c 5000 5000 false ctl1).1 = None
  /\ r1.1 = Some "a"
  /\ sendHAdelay ctl2 = HA_NEXT_DISCOVERY_DELAY c
  /\ r2.1 = Some "b"
  /\ elapsed 6501 ctl2 = 501
  /\ first_item_delay c false = 5000.
Proof. vm_compute. repeat split; done. Qed.

End JsonControllerFacts.

(** ** The JSON controller: runs *)

Module JsonControllerRuns.
Import JsonController JsonControllerFacts.

Section runs.
Context {World Call : Type}.
Variable c : config.

Abbreviation ctl_t := (EnigmaIOTjsonController World Call).
Implicit Types (ctl : ctl_t) (es : list (event Call)) (e : event Call).

(** One event: what is executed comes off the head of the queue, what is
    added goes to its end. *)
Lemma handle_queue e ctl :
  let r := handle c e ctl in
  match r.1 with Some f => [Some f] | None => [] end ++ haCallQueue r.2
  = haCallQueue ctl ++ match e with AddCall f => [f] | _ => [] end.
Proof.
  destruct e as [sleepy millis | millis1 millis2 sleepy | f]; simpl.
  - by rewrite app_nil_r.
  - rewrite app_nil_r. unfold callHAdiscoveryCalls.
    destruct (_ && _); [| done].
    by destruct (haCallQueue ctl) as [| [g |] q].
  - done.
Qed.

Lemma drive_queue es : forall ctl,
  (Some <$> (drive c es ctl).1) ++ haCallQueue (drive c es ctl).2
  = haCallQueue ctl ++ added es.
Proof.
  induction es as [| e es IH]; intros ctl.
  { simpl. by rewrite app_nil_r. }
  pose proof (handle_queue e ctl) as Hstep. cbv zeta in Hstep.
  cbn [drive]. cbv zeta. cbn [fst snd].
  specialize (IH (handle c e ctl).2).
  assert (added (e :: es)
          = match e with AddCall f => [f] | _ => [] end ++ added es) as ->.
  { by destruct e. }
  transitivity (match (handle c e ctl).1 with Some f => [Some f] | None => [] end
                ++ (haCallQueue (handle c e ctl).2 ++ added es)).
  - rewrite <- IH. by destruct (handle c e ctl).1.
  - rewrite !app_assoc. f_equal. exact Hstep.
Qed.

(** Over any run, the executed calls followed by what is left in the queue
    are the initial queue followed by the calls added on the way: calls run
    in the order in which they were queued, each at most once, and none is
    skipped. *)
Theorem discovery_calls_run_in_queue_order es ctl :
  (Some <$> (drive c es ctl).1) ++ haCallQueue (drive c es ctl).2
  = haCallQueue ctl ++ added es.
Proof. apply drive_queue. Qed.

(** A run without [connectInform] on a controller whose discovery is
    switched off executes nothing and leaves it switched off. *)
Lemma drive_idle es : forall ctl,
  doSendHAdiscovery ctl = false ->
  Forall (fun e => is_connect e = false) es ->
  (drive c es ctl).1 = [] /\ doSendHAdiscovery (drive c es ctl).2 = false.
Proof.
  induction es as [| e es IH]; intros ctl Hoff Hes; [done |].
  apply Forall_cons in Hes as [He Hes].
  assert ((handle c e ctl).1 = None
          /\ doSendHAdiscovery (handle c e ctl).2 = false) as [Hnone Hoff'].
  { destruct e; simpl in *; try done.
    unfold callHAdiscoveryCalls. by rewrite Hoff. }
  destruct (IH _ Hoff' Hes) as [IH1 IH2].
  cbn [drive]. cbv zeta. cbn [fst snd]. by rewrite Hnone.
Qed.

(** Until [connectInform] has been called, polling executes no discovery
    call, however many are queued and however much time passes. *)
Theorem no_discovery_before_connect time0 es :
  Forall (fun e => is_connect e = false) es ->
  (drive c es (fresh (World:=World) c time0)).1 = [].
Proof. intros Hes. by apply drive_idle. Qed.

(** A due poll that finds the queue empty switches discovery off; calls
    queued afterwards are not executed before the next [connectInform]. *)
Theorem discovery_stops_when_queue_runs_dry ctl millis1 millis2 sleepy es :
  doSendHAdiscovery ctl = true ->
  haCallQueue ctl = [] ->
  elapsed millis1 ctl > sendHAdelay ctl ->
  Forall (fun e => is_connect e = false) es ->
  let ctl' := (callHAdiscoveryCalls c millis1 millis2 sleepy ctl).2 in
  doSendHAdiscovery ctl' = false
  /\ (drive c es ctl').1 = []
  /\ haCallQueue (drive c es ctl').2 = added es.
Proof.
  intros Hon Hq Hdue Hes ctl'.
  assert (doSendHAdiscovery ctl' = false /\ haCallQueue ctl' = []) as [Hoff Hq'].
  { unfold ctl', callHAdiscoveryCalls, elapsed in *.
    rewrite Hon, bool_decide_eq_true_2, Hq by done. done. }
  destruct (drive_idle es ctl' Hoff Hes) as [Hnone _].
  split; [done |]. split; [done |].
  pose proof (drive_queue es ctl') as Hord.
  by rewrite Hnone, Hq' in Hord.
Qed.

(** An empty function object at the head of the queue is never removed:
    from then on no discovery call is executed, whatever is queued behind it
    and however often the node registers again. *)
Theorem empty_call_blocks_queue es : forall ctl,
  head (haCallQueue ctl) = Some None ->
  (drive c es ctl).1 = []
  /\ head (haCallQueue (drive c es ctl).2) = Some None.
Proof.
  induction es as [| e es IH]; intros ctl Hhead; [done |].
  assert ((handle c e ctl).1 = None
          /\ head (haCallQueue (handle c e ctl).2) = Some None) as [Hnone Hhead'].
  { destruct e as [sleepy millis | millis1 millis2 sleepy | f]; simpl.
    - done.
    - unfold callHAdiscoveryCalls. destruct (_ && _); [| done].
      by destruct (haCallQueue ctl) as [| [g |] q].
    - by destruct (haCallQueue ctl). }
  destruct (IH _ Hhead') as [IH1 IH2].
  cbn [drive]. cbv zeta. cbn [fst snd]. by rewrite Hnone.
Qed.

Lemma poll_events_no_connect polls :
  Forall (fun e : event Call => is_connect e = false) (poll_events polls).
Proof. unfold poll_events. apply Forall_fmap, Forall_forall. done. Qed.

(** When discovery is switched on and every poll comes after the delay in
    force, each poll executes the next queued call: [n] polls execute the
    first [n] calls of the queue, and a poll that finds the queue exhausted
    switches discovery off. *)
Theorem due_polls_drain_queue polls : forall ctl (fs : list Call),
  doSendHAdiscovery ctl = true ->
  haCallQueue ctl = Some <$> fs ->
  all_due c polls ctl ->
  let r := drive c (poll_events polls) ctl in
  r.1 = take (length polls) fs
  /\ haCallQueue r.2 = Some <$> drop (length polls) fs
  /\ doSendHAdiscovery r.2 = bool_decide (length polls <= length fs)%nat.
Proof.
  induction polls as [| [[millis1 millis2] sleepy] polls IH];
    intros ctl fs Hon Hq Hdue.
  { split; [done |]. split; [by rewrite drop_0 |].
    change (doSendHAdiscovery ctl = bool_decide (0 <= length fs)%nat).
    rewrite Hon. symmetry. apply bool_decide_eq_true. lia. }
  destruct Hdue as [Hnow Hdue].
  change (poll_events ((millis1, millis2, sleepy) :: polls))
    with (Poll (Call:=Call) millis1 millis2 sleepy :: poll_events polls).
  cbn [drive handle]. cbv zeta. cbn [length].
  remember (callHAdiscoveryCalls c millis1 millis2 sleepy ctl) as r eqn:Hr.
  cbn [fst snd].
  destruct fs as [| f fs].
  - assert (r.1 = None /\ doSendHAdiscovery r.2 = false /\ haCallQueue r.2 = [])
      as (Hnone & Hoff & Hq').
    { subst r. unfold callHAdiscoveryCalls, elapsed in *.
      rewrite Hon, bool_decide_eq_true_2, Hq by done. done. }
    destruct (drive_idle (poll_events polls) r.2 Hoff (poll_events_no_connect polls))
      as [Hrun Hoff'].
    pose proof (drive_queue (poll_events polls) r.2) as Hord.
    assert (added (poll_events (Call:=Call) polls) = []) as Hadd.
    { clear. induction polls as [| p polls IH]; [done |]. exact IH. }
    rewrite Hrun, Hq', Hadd in Hord. simpl in Hord.
    rewrite Hnone, Hrun, Hord, Hoff'. split; [done |]. split; [done |].
    symmetry. apply bool_decide_eq_false. simpl. lia.
  - assert (r.1 = Some f /\ doSendHAdiscovery r.2 = true
            /\ haCallQueue r.2 = Some <$> fs) as (Hsome & Hon' & Hq').
    { subst r. unfold callHAdiscoveryCalls, elapsed in *.
      rewrite Hon, bool_decide_eq_true_2, Hq by done. done. }
    destruct (IH r.2 fs Hon' Hq' Hdue) as (IH1 & IH2 & IH3).
    rewrite Hsome, IH1, IH2, IH3. split; [done |]. split; [done |].
    apply bool_decide_ext. simpl. lia.
Qed.

(** The guard of [callHAdiscoveryCalls] measures the time since
    [sendHAtime] also when the 32-bit clock has wrapped in between: a call
    is executed exactly when more than [sendHAdelay] has passed. *)
Theorem guard_across_clock_wrap ctl (d millis2 : Z) sleepy (f : Call) :
  0 <= d < 2 ^ 32 ->
  doSendHAdiscovery ctl = true ->
  head (haCallQueue ctl) = Some (Some f) ->
  let millis1 := to_uint32 (sendHAtime ctl + d) in
  elapsed millis1 ctl = d
  /\ ((callHAdiscoveryCalls c millis1 millis2 sleepy ctl).1 = Some f
      <-> d > sendHAdelay ctl).
Proof.
  intros Hd Hon Hhead millis1.
  assert (elapsed millis1 ctl = d) as Hel.
  { unfold elapsed, millis1, to_uint32.
    rewrite Zminus_mod_idemp_l.
    replace (sendHAtime ctl + d - sendHAtime ctl) with d by lia.
    apply Z.mod_small. lia. }
  split; [done |].
  unfold callHAdiscoveryCalls. fold (elapsed millis1 ctl). rewrite Hon, Hel.
  destruct (haCallQueue ctl) as [| g q]; [done |]. injection Hhead as ->.
  case_bool_decide; simpl; split; done.
Qed.

End runs.

Section sending.
Context {World Call : Type}.


End sending.

(** *** Instances *)

Lemma empty_call_blocks_queue_witness :
  let ctl : EnigmaIOTjsonController unit string :=
    addHACall (Some "b") (addHACall None (fresh sample_config 0)) in
  let es := [Connect false 0; Poll 6000 6000 false; Connect false 7000;
             AddCall (Some "c"); Poll 99000 99000 false] in
  head (haCallQueue ctl) = Some None
  /\ (drive sample_config es ctl).1 = [].
Proof.
  intros ctl es.
  assert (head (haCallQueue ctl) = Some None) as Hh by reflexivity.
  split; [exact Hh |].
  destruct (empty_call_blocks_queue sample_config es ctl Hh) as [Hnone _].
  exact Hnone.
Defined.

Lemma no_discovery_before_connect_witness :
  let es : list (event string) :=
    [AddCall (Some "a"); Poll 6000 6000 false; Poll 99000 99000 true] in
  Forall (fun e => is_connect e = false) es
  /\ (drive sample_config es (fresh (World:=unit) sample_config 0)).1 = [].
Proof.
  intros es.
  assert (Forall (fun e => is_connect e = false) es) as Hes.
  { repeat (apply Forall_cons; split; [reflexivity |]). apply Forall_nil. exact I. }
  split; [exact Hes |].
  exact (no_discovery_before_connect sample_config 0 es Hes).
Defined.

Lemma discovery_stops_when_queue_runs_dry_witness :
  let ctl : EnigmaIOTjsonController unit string :=
    connectInform sample_config false 0 (fresh sample_config 0) in
  let es := [AddCall (Some "late"); Poll 99000 99000 false] in
  doSendHAdiscovery ctl = true
  /\ haCallQueue ctl = []
  /\ elapsed 5001 ctl > sendHAdelay ctl
  /\ Forall (fun e => is_connect e = false) es
  /\ (drive sample_config es
        (callHAdiscoveryCalls sample_config 5001 5001 false ctl).2).1 = [].
Proof.
  intros ctl es.
  assert (elapsed 5001 ctl > sendHAdelay ctl) as Hdue by (vm_compute; reflexivity).
  assert (Forall (fun e => is_connect e = false) es) as Hes.
  { repeat (apply Forall_cons; split; [reflexivity |]). apply Forall_nil. exact I. }
  split; [reflexivity |]. split; [reflexivity |]. split; [exact Hdue |].
  split; [exact Hes |].
  destruct (discovery_stops_when_queue_runs_dry sample_config ctl 5001 5001 false es
              eq_refl eq_refl Hdue Hes) as (_ & Hnone & _).
  exact Hnone.
Defined.

Lemma due_polls_drain_queue_witness :
  let ctl : EnigmaIOTjsonController unit string :=
    connectInform sample_config false 0
      (addHACall (Some "b") (addHACall (Some "a") (fresh sample_config 0))) in
  let polls := [(5001, 5002, false); (5503, 5504, false); (6005, 6006, false)] in
  doSendHAdiscovery ctl = true
  /\ haCallQueue ctl = Some <$> ["a"; "b"]
  /\ all_due sample_config polls ctl
  /\ (drive sample_config (poll_events polls) ctl).1 = ["a"; "b"]
  /\ doSendHAdiscovery (drive sample_config (poll_events polls) ctl).2 = false.
Proof.
  intros ctl polls.
  assert (all_due sample_config polls ctl) as Hdue.
  { repeat (split; [vm_compute; reflexivity |]). exact I. }
  split; [reflexivity |]. split; [reflexivity |]. split; [exact Hdue |].
  destruct (due_polls_drain_queue sample_config polls ctl ["a"; "b"]
              eq_refl eq_refl Hdue) as (Hrun & _ & Hoff).
  split; [exact Hrun | exact Hoff].
Defined.

Lemma guard_across_clock_wrap_witness :
  let ctl : EnigmaIOTjsonController unit string :=
    connectInform sample_config false (2 ^ 32 - 100)
      (addHACall (Some "a") (fresh sample_config 0)) in
  0 <= 5001 < 2 ^ 32
  /\ doSendHAdiscovery ctl = true
  /\ head (haCallQueue ctl) = Some (Some "a")
  /\ to_uint32 (sendHAtime ctl + 5001) = 4901
  /\ elapsed 4901 ctl = 5001.
Proof.
  intros ctl.
  assert (0 <= 5001 < 2 ^ 32) as Hd by lia.
  split; [exact Hd |]. split; [reflexivity |]. split; [reflexivity |].
  split; [vm_compute; reflexivity |].
  destruct (guard_across_clock_wrap sample_config ctl 5001 0 false "a"
              Hd eq_refl eq_refl) as [Hel _].
  exact Hel.
Defined.

Lemma first_call_waits_witness :
  let ctl : EnigmaIOTjsonController unit string :=
    addHACall (Some "a") (fresh sample_config 0) in
  (false = true \/ sendHAdelay ctl = HA_FIRST_DISCOVERY_DELAY sample_config)
  /\ (callHAdiscoveryCalls sample_config 5001 5001 false
        (connectInform sample_config false 0 ctl)).1 = Some "a"
  /\ to_uint32 (5001 - 0) > first_item_delay sample_config false.
Proof.
  intros ctl.
  assert (false = true \/ sendHAdelay ctl = HA_FIRST_DISCOVERY_DELAY sample_config)
    as Hinit by (right; reflexivity).
  assert ((callHAdiscoveryCalls sample_config 5001 5001 false
             (connectInform sample_config false 0 ctl)).1 = Some "a") as Hexec
    by (vm_compute; reflexivity).
  split; [exact Hinit |]. split; [exact Hexec |].
  exact (first_call_waits sample_config ctl false 0 5001 5001 false "a" Hinit Hexec).
Defined.

Lemma next_call_waits_witness :
  let ctl : EnigmaIOTjsonController unit string :=
    connectInform sample_config false 0
      (addHACall (Some "b") (addHACall (Some "a") (fresh sample_config 0))) in
  (callHAdiscoveryCalls sample_config 5001 5002 true ctl).1 = Some "a"
  /\ (callHAdiscoveryCalls sample_config 6003 6004 false
        (callHAdiscoveryCalls sample_config 5001 5002 true ctl).2).1 = Some "b"
  /\ to_uint32 (6003 - 5002) > next_item_delay sample_config true.
Proof.
  intros ctl.
  assert ((callHAdiscoveryCalls sample_config 5001 5002 true ctl).1 = Some "a")
    as H1 by (vm_compute; reflexivity).
  assert ((callHAdiscoveryCalls sample_config 6003 6004 false
             (callHAdiscoveryCalls sample_config 5001 5002 true ctl).2).1 = Some "b")
    as H2 by (vm_compute; reflexivity).
  split; [exact H1 |]. split; [exact H2 |].
  exact (next_call_waits sample_config ctl 5001 5002 true "a" 6003 6004 false "b" H1 H2).
Defined.

End JsonControllerRuns.

(** ** Debug macros *)

Module DebugFacts.
Import Debug.

Lemma prints_iff b m :
  prints b m
  <-> DEBUG_ESP_PORT b = true /\ ESP8266 b = true /\ level_of m <= DEBUG_LEVEL b.
Proof.
  unfold prints, expansion_of.
  destruct (DEBUG_ESP_PORT b), (ESP8266 b), (ESP32 b); try case_decide;
    split; try (intros [? ?]; done); try (intros (? & ? & ?); done);
    try (intros _; repeat split; try done; lia);
    try (intros _; eexists; done); intros (_ & _ & ?); lia.
Qed.

(** On the ESP8266 the levels nest: a macro that prints at some debug level
    still prints at every higher level, and with it every macro of a more
    severe kind; at [NO_DEBUG], or without [DEBUG_ESP_PORT], no macro
    prints. *)
Theorem debug_levels_nest (b b' : build) (m m' : debug_macro) :
  prints b m ->
  DEBUG_ESP_PORT b' = true -> ESP8266 b' = true ->
  DEBUG_LEVEL b <= DEBUG_LEVEL b' ->
  level_of m' <= level_of m ->
  prints b' m'
  /\ DEBUG_LEVEL b <> NO_DEBUG
  /\ expansion_of b' m' = SerialLine (letter_of m').
Proof.
  intros Hp Hport H8266 Hlevel Hsev.
  apply prints_iff in Hp as (_ & _ & Hm).
  assert (level_of m' <= DEBUG_LEVEL b') as Hm' by lia.
  split; [apply prints_iff; done |]. split.
  - unfold NO_DEBUG. destruct m; unfold level_of, VERBOSE, DBG, INFO, WARN, D_ERROR in Hm; lia.
  - unfold expansion_of. rewrite Hport, H8266, decide_True by lia. done.
Qed.

Lemma debug_levels_nest_witness :
  let b := {| DEBUG_ESP_PORT := true; ESP8266 := true; ESP32 := false;
              DEBUG_LEVEL := WARN |} in
  let b' := {| DEBUG_ESP_PORT := true; ESP8266 := true; ESP32 := false;
               DEBUG_LEVEL := DBG |} in
  prints b DEBUG_WARN
  /\ DEBUG_ESP_PORT b' = true /\ ESP8266 b' = true
  /\ DEBUG_LEVEL b <= DEBUG_LEVEL b'
  /\ level_of DEBUG_ERROR <= level_of DEBUG_WARN
  /\ expansion_of b' DEBUG_ERROR = SerialLine "E ".
Proof.
  intros b b'.
  assert (prints b DEBUG_WARN) as Hp by (exists "W "; reflexivity).
  assert (DEBUG_LEVEL b <= DEBUG_LEVEL b') as Hl by (vm_compute; discriminate).
  assert (level_of DEBUG_ERROR <= level_of DEBUG_WARN) as Hs
    by (vm_compute; discriminate).
  split; [exact Hp |]. split; [reflexivity |]. split; [reflexivity |].
  split; [exact Hl |]. split; [exact Hs |].
  destruct (debug_levels_nest b b' DEBUG_WARN DEBUG_ERROR Hp eq_refl eq_refl Hl Hs)
    as (_ & _ & He).
  exact He.
Defined.


End DebugFacts.

(** ** Message codes: instances *)

Module MessageTypeInstances.
Import MessageType MessageTypeFacts.

Lemma only_shared_tag_witness :
  ("HA_DISCOVERY_MESSAGE", 8) ∈ enumerators
  /\ ("BROADCAST_KEY_REQUEST", 8) ∈ enumerators
  /\ "HA_DISCOVERY_MESSAGE" <> "BROADCAST_KEY_REQUEST"
  /\ 8 = 0x08.
Proof.
  assert (("HA_DISCOVERY_MESSAGE", 8) ∈ enumerators) as H1.
  { unfold enumerators.
    repeat first [apply list_elem_of_here | apply list_elem_of_further]. }
  assert (("BROADCAST_KEY_REQUEST", 8) ∈ enumerators) as H2.
  { unfold enumerators.
    repeat first [apply list_elem_of_here | apply list_elem_of_further]. }
  assert ("HA_DISCOVERY_MESSAGE" <> "BROADCAST_KEY_REQUEST") as Hne by discriminate.
  split; [exact H1 |]. split; [exact H2 |]. split; [exact Hne |].
  exact (only_shared_tag "HA_DISCOVERY_MESSAGE" "BROADCAST_KEY_REQUEST" 8 H1 H2 Hne).
Defined.

End MessageTypeInstances.
